(** * Minesweeper knowledge-based player: a shallow embedding of
    [minesweeper.py] and the properties of its inference engine.

    Cells are pairs of Python integers ([Z * Z]); Python sets of cells are
    [gset (Z * Z)]; the knowledge base is the Python list of [Sentence]
    objects, in list order.  Every [Sentence] object is referenced from the
    knowledge list only and owns its cell set ([Sentence.__init__] copies
    the set it is given), so the in-place updates of the source are
    modelled by rewriting the list element at its position. *)

From stdpp Require Import base decidable option numbers gmap sets list.

Local Open Scope Z_scope.
#[local] Set Warnings "-clear-no-such-hyp".

Abbreviation Cell := (Z * Z)%type.

(** ** Python helpers *)

(** Truth value of [x] in [if x:] where [x] is either [None] or a set. *)
Definition truthy (o : option (gset Cell)) : bool :=
  match o with
  | Some s => bool_decide (s ≠ ∅)
  | None => false
  end.

(** [range(a, b)] *)
Definition range (a b : Z) : list Z := seqZ a (b - a).

(** [l[i]] on a Python list: negative indices count from the end,
    [None] stands for [IndexError]. *)
Definition py_index {A} (l : list A) (i : Z) : option A :=
  if decide (0 ≤ i) then l !! Z.to_nat i
  else if decide (- Z.of_nat (length l) ≤ i)
       then l !! Z.to_nat (Z.of_nat (length l) + i)
       else None.

(** The cells visited by
    [for i in range(x-1, x+2): for j in range(y-1, y+2)]. *)
Definition window (cell : Cell) : list Cell :=
  i ← range (cell.1 - 1) (cell.1 + 2);
  j ← range (cell.2 - 1) (cell.2 + 2);
  [(i, j)].

(** ** class Sentence *)

Record Sentence := mkSentence { cells : gset Cell; count : Z }.

Global Instance Sentence_eq_dec : EqDecision Sentence.
Proof. solve_decision. Defined.

Module Sentence.

(** [Sentence.__eq__] *)
Definition eqb (s other : Sentence) : bool :=
  bool_decide (cells s = cells other) && bool_decide (count s = count other).

Definition known_mines (s : Sentence) : option (gset Cell) :=
  if decide (count s = Z.of_nat (size (cells s))) then Some (cells s)
  else None.

Definition known_safes (s : Sentence) : option (gset Cell) :=
  if decide (count s = 0) then Some (cells s) else None.

Definition mark_mine (cell : Cell) (s : Sentence) : Sentence :=
  if decide (cell ∈ cells s)
  then mkSentence (cells s ∖ {[cell]}) (count s - 1)
  else s.

Definition mark_safe (cell : Cell) (s : Sentence) : Sentence :=
  if decide (cell ∈ cells s)
  then mkSentence (cells s ∖ {[cell]}) (count s)
  else s.

End Sentence.

(** ** class MinesweeperAI *)

Record MinesweeperAI := mkAI {
  height : Z;
  width : Z;
  moves_made : gset Cell;
  mines : gset Cell;
  safes : gset Cell;
  knowledge : list Sentence
}.

(** [MinesweeperAI.__init__] *)
Definition init (h w : Z) : MinesweeperAI := mkAI h w ∅ ∅ ∅ [].

Definition mark_mine (cell : Cell) (ai : MinesweeperAI) : MinesweeperAI :=
  mkAI (height ai) (width ai) (moves_made ai)
       ({[cell]} ∪ mines ai) (safes ai)
       (Sentence.mark_mine cell <$> knowledge ai).

Definition mark_safe (cell : Cell) (ai : MinesweeperAI) : MinesweeperAI :=
  mkAI (height ai) (width ai) (moves_made ai)
       (mines ai) ({[cell]} ∪ safes ai)
       (Sentence.mark_safe cell <$> knowledge ai).

(** [for s in X.copy(): self.mark_safe(s)], for the order [l] in which the
    copy is iterated. *)
Definition mark_safe_all (l : list Cell) (ai : MinesweeperAI) : MinesweeperAI :=
  foldl (fun a c => mark_safe c a) ai l.

Definition mark_mine_all (l : list Cell) (ai : MinesweeperAI) : MinesweeperAI :=
  foldl (fun a c => mark_mine c a) ai l.

(** The neighbours collected in step 3 of [add_knowledge]. *)
Definition in_bounds (ai : MinesweeperAI) (c : Cell) : Prop :=
  0 ≤ c.1 < height ai ∧ 0 ≤ c.2 < width ai.

Global Instance in_bounds_dec ai c : Decision (in_bounds ai c).
Proof. unfold in_bounds. apply _. Defined.

Definition neighbors (ai : MinesweeperAI) (cell : Cell) : gset Cell :=
  list_to_set
    (filter (fun c => in_bounds ai c ∧ c ≠ cell) (window cell)).

(** One iteration of the body of [for sentence in list(self.knowledge)]:
    the sentence is the object at position [i], read in its current state
    at each of the two tests. *)
Definition conclude_at (i : nat) (st : MinesweeperAI * bool)
  : MinesweeperAI * bool :=
  let '(ai, found) := st in
  match knowledge ai !! i with
  | None => (ai, found)
  | Some sentence =>
      let '(ai1, found1) :=
        if truthy (Sentence.known_safes sentence)
        then (mark_safe_all (elements (cells sentence)) ai, true)
        else (ai, found) in
      match knowledge ai1 !! i with
      | None => (ai1, found1)
      | Some sentence1 =>
          if truthy (Sentence.known_mines sentence1)
          then (mark_mine_all (elements (cells sentence1)) ai1, true)
          else (ai1, found1)
      end
  end.

(** The whole first [for] loop of a pass, started with
    [new_info_found = False]. *)
Definition conclude (ai : MinesweeperAI) : MinesweeperAI * bool :=
  foldl (fun st i => conclude_at i st) (ai, false)
        (seq 0 (length (knowledge ai))).

(** The body of the two nested loops over [s1] and [s2]: what the pair
    contributes to [newly_inferred]. *)
Definition infer_pair (kb : list Sentence) (s1 s2 : Sentence) : list Sentence :=
  if Sentence.eqb s1 s2 then []
  else if decide (cells s2 ⊆ cells s1)
       then let new_sentence :=
              mkSentence (cells s1 ∖ cells s2) (count s1 - count s2) in
            if existsb (Sentence.eqb new_sentence) kb then []
            else [new_sentence]
       else [].

Definition newly_inferred (kb : list Sentence) : list Sentence :=
  s1 ← kb; s2 ← kb; infer_pair kb s1 s2.

(** One pass of the [while True] loop: the state after the pass and the
    final value of [new_info_found]. *)
Definition pass (ai : MinesweeperAI) : MinesweeperAI * bool :=
  let '(ai1, found) := conclude ai in
  let inferred := newly_inferred (knowledge ai1) in
  match inferred with
  | [] => (ai1, found)
  | _ :: _ =>
      (mkAI (height ai1) (width ai1) (moves_made ai1) (mines ai1) (safes ai1)
            (knowledge ai1 ++ inferred), true)
  end.

(** The [while True] loop.  [None] means the loop is still running after
    [fuel] passes. *)
Fixpoint deduce (fuel : nat) (ai : MinesweeperAI) : option MinesweeperAI :=
  match fuel with
  | O => None
  | S fuel' =>
      let '(ai', found) := pass ai in
      if found then deduce fuel' ai' else Some ai'
  end.

(** Steps 1 to 3 of [add_knowledge]. *)
Definition record_observation (cell : Cell) (n : Z) (ai : MinesweeperAI)
  : MinesweeperAI :=
  let ai1 := mkAI (height ai) (width ai) ({[cell]} ∪ moves_made ai)
                  (mines ai) (safes ai) (knowledge ai) in
  let ai2 := mark_safe cell ai1 in
  mkAI (height ai2) (width ai2) (moves_made ai2) (mines ai2) (safes ai2)
       (knowledge ai2 ++ [mkSentence (neighbors ai2 cell) n]).

Definition add_knowledge (fuel : nat) (cell : Cell) (n : Z) (ai : MinesweeperAI)
  : option MinesweeperAI :=
  deduce fuel (record_observation cell n ai).

(** [make_safe_move], for the order [order] in which [for i in self.safes]
    visits the set.  The method belongs to a mutable object, so the model
    returns the engine state next to the returned value. *)
Definition make_safe_move_in (order : list Cell) (ai : MinesweeperAI)
  : option Cell * MinesweeperAI :=
  (find (fun i => bool_decide (i ∉ moves_made ai)) order, ai).

(** The orders in which a Python set may be iterated. *)
Definition iteration_order (X : gset Cell) (order : list Cell) : Prop :=
  order ≡ₚ elements X.

Definition make_safe_move (ai : MinesweeperAI) : option Cell * MinesweeperAI :=
  make_safe_move_in (elements (safes ai)) ai.

(** The list built by the two nested loops of [make_random_move]. *)
Definition possible_moves (ai : MinesweeperAI) : list Cell :=
  i ← range 0 (height ai);
  j ← range 0 (width ai);
  (if decide (((i, j) ∉ moves_made ai) ∧ ((i, j) ∉ mines ai))
   then [(i, j)] else []).

(** [random.choice(seq)] is [seq[k]] for an index [k] below [len(seq)]
    drawn by the generator; [rnd] is the generator's raw draw. *)
Definition choice {A} (rnd : nat) (l : list A) : option A :=
  l !! (rnd `mod` length l)%nat.

Definition make_random_move (rnd : nat) (ai : MinesweeperAI)
  : option Cell * MinesweeperAI :=
  match possible_moves ai with
  | [] => (None, ai)
  | _ :: _ => (choice rnd (possible_moves ai), ai)
  end.

(** ** class Minesweeper: the board the observations come from *)

Module Minesweeper.

Record t := mk { height : Z; width : Z; board : list (list bool) }.

(** The shape [__init__] gives the board. *)
Definition well_formed (g : t) : Prop :=
  Z.of_nat (length (board g)) = height g ∧
  Forall (fun row => Z.of_nat (length row) = width g) (board g).

(** [self.board[i][j]] *)
Definition board_at (g : t) (i j : Z) : option bool :=
  row ← py_index (board g) i; py_index row j.

Definition is_mine (g : t) (cell : Cell) : option bool :=
  board_at g cell.1 cell.2.

(** The body of the two nested loops of [nearby_mines], on the running
    [count]. *)
Definition nearby_step (g : t) (cell : Cell) (acc : option Z) (c : Cell)
  : option Z :=
  n ← acc;
  if decide (c = cell) then Some n
  else if decide (0 ≤ c.1 < height g ∧ 0 ≤ c.2 < width g)
       then b ← board_at g c.1 c.2; Some (if b : bool then n + 1 else n)
       else Some n.

Definition nearby_mines (g : t) (cell : Cell) : option Z :=
  foldl (nearby_step g cell) (Some 0) (window cell).

End Minesweeper.

(** An observation a game on board [g] can hand to the player: a cell of the
    board that is not a mine, with the number of mines around it. *)
Definition consistent (g : Minesweeper.t) (cell : Cell) (n : Z) : Prop :=
  (0 ≤ cell.1 < Minesweeper.height g ∧ 0 ≤ cell.2 < Minesweeper.width g) ∧
  Minesweeper.is_mine g cell = Some false ∧
  Minesweeper.nearby_mines g cell = Some n.

(** Engine states met while playing on board [g]: a fresh engine of the
    board's size, then any number of [add_knowledge] calls that returned. *)
Inductive played (g : Minesweeper.t) : MinesweeperAI → Prop :=
  | played_init :
      played g (init (Minesweeper.height g) (Minesweeper.width g))
  | played_add_knowledge ai cell n fuel ai' :
      played g ai →
      consistent g cell n →
      add_knowledge fuel cell n ai = Some ai' →
      played g ai'.

(** Engine states reachable from a fresh engine through its methods, with
    arbitrary arguments. *)
Inductive reachable (h w : Z) : MinesweeperAI → Prop :=
  | reach_init : reachable h w (init h w)
  | reach_add_knowledge ai cell n fuel ai' :
      reachable h w ai →
      add_knowledge fuel cell n ai = Some ai' →
      reachable h w ai'
  | reach_mark_mine ai cell :
      reachable h w ai → reachable h w (mark_mine cell ai)
  | reach_mark_safe ai cell :
      reachable h w ai → reachable h w (mark_safe cell ai)
  | reach_make_safe_move ai order :
      reachable h w ai →
      iteration_order (safes ai) order →
      reachable h w (make_safe_move_in order ai).2
  | reach_make_random_move ai rnd :
      reachable h w ai → reachable h w (make_random_move rnd ai).2.

(** ** Notions used to state and prove the properties *)

(** The sentence says the truth about the mines [is_mine]. *)
Definition sound (is_mine : Cell → Prop) `{!∀ c, Decision (is_mine c)}
    (s : Sentence) : Prop :=
  count s = Z.of_nat (size (filter is_mine (cells s))).

(** Cells still mentioned by some sentence. *)
Definition live (kb : list Sentence) : gset Cell := ⋃ (cells <$> kb).

(** The cell sets present in the knowledge base. *)
Definition shapes (kb : list Sentence) : gset (gset Cell) :=
  list_to_set (cells <$> kb).

(** All subsets of the set of the cells listed in [l]. *)
Fixpoint subsets (l : list Cell) : list (gset Cell) :=
  match l with
  | [] => [∅]
  | c :: l' => subsets l' ++ ((fun X => {[c]} ∪ X) <$> subsets l')
  end.

Definition powerset (U : gset Cell) : gset (gset Cell) :=
  list_to_set (subsets (elements U)).

(** The quantity that decreases at every pass of the deduction loop that
    finds something, while all sentences are sound and mention cells of [U]
    only. *)
Definition potential (U : gset Cell) (ai : MinesweeperAI) : nat :=
  (size (live (knowledge ai)) * S (size (powerset U))
   + size (powerset U ∖ shapes (knowledge ai)))%nat.

(** [ai'] has the board size and the moves of [ai], knows at least the
    mines and safe cells of [ai], and its sentences are those of [ai], each
    without the cells of one set [R]. *)
Definition narrowed (ai ai' : MinesweeperAI) : Prop :=
  height ai' = height ai ∧ width ai' = width ai ∧
  moves_made ai' = moves_made ai ∧
  mines ai ⊆ mines ai' ∧ safes ai ⊆ safes ai' ∧
  ∃ R : gset Cell,
    cells <$> knowledge ai' = (fun X => X ∖ R) <$> (cells <$> knowledge ai).

(** Everything the engine holds is true of the mines [is_mine]. *)
Definition truthful (is_mine : Cell → Prop) `{!∀ c, Decision (is_mine c)}
    (ai : MinesweeperAI) : Prop :=
  Forall (sound is_mine) (knowledge ai) ∧
  (∀ c, c ∈ safes ai → ¬ is_mine c) ∧
  (∀ c, c ∈ mines ai → is_mine c).

(** The cells of board [g] that hold a mine. *)
Definition mine (g : Minesweeper.t) (c : Cell) : Prop :=
  Minesweeper.is_mine g c = Some true.

Global Instance mine_dec g c : Decision (mine g c).
Proof. unfold mine. apply _. Defined.

(** The cells that [nearby_mines g cell] counts. *)
Definition counted (g : Minesweeper.t) (cell c : Cell) : Prop :=
  ((0 ≤ c.1 < Minesweeper.height g ∧ 0 ≤ c.2 < Minesweeper.width g)
   ∧ c ≠ cell) ∧ mine g c.

Global Instance counted_dec g cell c : Decision (counted g cell c).
Proof. unfold counted. apply _. Defined.

(** The sentences of the subset-resolution scenario. *)
Definition scenario_A : Sentence := mkSentence {[ (1, 1); (1, 2); (2, 1) ]} 1.
Definition scenario_B : Sentence := mkSentence {[ (1, 1); (1, 2) ]} 1.
Definition scenario_ai : MinesweeperAI :=
  mkAI 3 3 ∅ ∅ ∅ [scenario_A; scenario_B].

(** The 3x3 board with a single mine at (2,2). *)
Definition corner_board : Minesweeper.t :=
  Minesweeper.mk 3 3 [[false; false; false];
                      [false; false; false];
                      [false; false; true]].

(** The engine after the observation of (0,0) with count 0 on that board. *)
Definition after_first_observation : MinesweeperAI :=
  mkAI 3 3 {[ (0, 0) ]} ∅ {[ (0, 0); (0, 1); (1, 0); (1, 1) ]}
       [mkSentence ∅ 0].

(** The 1x2 and 2x2 boards with a single mine at (0,0). *)
Definition mined_board_1x2 : Minesweeper.t :=
  Minesweeper.mk 1 2 [[true; false]].

Definition mined_board_2x2 : Minesweeper.t :=
  Minesweeper.mk 2 2 [[true; false]; [false; false]].

(** Every cell a sentence of the engine mentions satisfies [L], every known
    mine [Qm] and every known safe cell [Qs]. *)
Definition confined (L Qm Qs : Cell → Prop) (ai : MinesweeperAI) : Prop :=
  (∀ c, c ∈ live (knowledge ai) → L c) ∧
  (∀ c, c ∈ mines ai → Qm c) ∧
  (∀ c, c ∈ safes ai → Qs c).

(** ** Building a board: [Minesweeper.__init__] and [won] *)

Module Game.

(** The fields of a [Minesweeper] object: the board with its size, the set
    of mines and the set of mines found. *)
Record t := mk {
  grid : Minesweeper.t;
  mines : gset Cell;
  mines_found : gset Cell
}.

(** How a call ends: it returns, it raises, or it is still running when the
    random draws at hand are used up. *)
Inductive outcome (A : Type) : Type :=
  | Returned (a : A)
  | Raised
  | Running.
Arguments Returned {A} a.
Arguments Raised {A}.
Arguments Running {A}.

(** The board the two nested [for] loops build, row by row and cell by
    cell. *)
Definition empty_board (h w : Z) : list (list bool) :=
  foldl (fun board _ =>
           board ++ [foldl (fun row _ => row ++ [false]) [] (range 0 w)])
        [] (range 0 h).

(** [random.randrange(n)] for the generator's raw draw [rnd]; [None] stands
    for the [ValueError] raised when the range is empty. *)
Definition randrange (rnd : nat) (n : Z) : option Z :=
  if decide (0 < n) then Some (Z.of_nat rnd `mod` n) else None.

(** [board[i][j] = True], for indices that are not negative. *)
Definition set_mine (board : list (list bool)) (i j : Z) : list (list bool) :=
  match board !! Z.to_nat i with
  | Some row => <[Z.to_nat i := <[Z.to_nat j := true]> row]> board
  | None => board
  end.

(** The [while len(self.mines) != mines] loop, fed with the draws of the
    generator. *)
Fixpoint place (h w k : Z) (draws : list (nat * nat))
    (board : list (list bool)) (ms : gset Cell)
  : outcome (list (list bool) * gset Cell) :=
  if decide (Z.of_nat (size ms) = k) then Returned (board, ms)
  else
    match draws with
    | [] => Running
    | (ri, rj) :: draws' =>
        match randrange ri h with
        | None => Raised
        | Some i =>
            match randrange rj w with
            | None => Raised
            | Some j =>
                match Minesweeper.board_at (Minesweeper.mk h w board) i j with
                | None => Raised
                | Some true => place h w k draws' board ms
                | Some false =>
                    place h w k draws' (set_mine board i j) ({[(i, j)]} ∪ ms)
                end
            end
        end
    end.

(** [Minesweeper.__init__(height, width, mines)] *)
Definition init (h w k : Z) (draws : list (nat * nat)) : outcome t :=
  match place h w k draws (empty_board h w) ∅ with
  | Returned (board, ms) => Returned (mk (Minesweeper.mk h w board) ms ∅)
  | Raised => Raised
  | Running => Running
  end.

(** [won] *)
Definition won (gm : t) : bool := bool_decide (mines_found gm = mines gm).

End Game.

(** The board and the mine set agree, inside a board of [h] rows and [w]
    columns. *)
Definition board_matches (h w : Z) (board : list (list bool))
    (ms : gset Cell) : Prop :=
  length board = Z.to_nat h ∧
  Forall (fun row => length row = Z.to_nat w) board ∧
  (∀ i j, 0 ≤ i < h → 0 ≤ j < w →
          ∃ b : bool,
            Minesweeper.board_at (Minesweeper.mk h w board) i j = Some b ∧
            (b = true ↔ (i, j) ∈ ms)) ∧
  (∀ c, c ∈ ms → 0 ≤ c.1 < h ∧ 0 ≤ c.2 < w).

(** * Properties *)

(** ** Sentences *)

Section sentence.
Implicit Types (s : Sentence) (c : Cell) (X : gset Cell).

Lemma eqb_eq s1 s2 : Sentence.eqb s1 s2 = true ↔ s1 = s2.
Proof.
  unfold Sentence.eqb. rewrite andb_true_iff, !bool_decide_eq_true.
  destruct s1, s2; simpl. split; [intros [-> ->] | intros [= -> ->]]; done.
Qed.

Lemma eqb_neq s1 s2 : Sentence.eqb s1 s2 = false ↔ s1 ≠ s2.
Proof. rewrite <- eqb_eq. destruct (Sentence.eqb s1 s2); naive_solver. Qed.

Lemma existsb_eqb s kb : existsb (Sentence.eqb s) kb = true ↔ s ∈ kb.
Proof.
  rewrite existsb_exists. setoid_rewrite eqb_eq.
  setoid_rewrite <- list_elem_of_In. naive_solver.
Qed.

Lemma truthy_spec o :
  truthy o = true ↔ ∃ X, o = Some X ∧ X ≠ ∅.
Proof.
  destruct o as [X|]; simpl; [rewrite bool_decide_eq_true|]; naive_solver.
Qed.

Lemma cells_mark_safe c s :
  cells (Sentence.mark_safe c s) = cells s ∖ {[c]}.
Proof. unfold Sentence.mark_safe. case_decide; simpl; set_solver. Qed.

Lemma cells_mark_mine c s :
  cells (Sentence.mark_mine c s) = cells s ∖ {[c]}.
Proof. unfold Sentence.mark_mine. case_decide; simpl; set_solver. Qed.

Lemma count_mark_safe c s : count (Sentence.mark_safe c s) = count s.
Proof. unfold Sentence.mark_safe. by case_decide. Qed.

Lemma mark_safe_absent c s : c ∉ cells s → Sentence.mark_safe c s = s.
Proof. unfold Sentence.mark_safe. by case_decide. Qed.

Lemma mark_mine_absent c s : c ∉ cells s → Sentence.mark_mine c s = s.
Proof. unfold Sentence.mark_mine. by case_decide. Qed.

Lemma sentence_mark_safe_twice c s :
  Sentence.mark_safe c (Sentence.mark_safe c s) = Sentence.mark_safe c s.
Proof. apply mark_safe_absent. rewrite cells_mark_safe. set_solver. Qed.

Lemma sentence_mark_mine_twice c s :
  Sentence.mark_mine c (Sentence.mark_mine c s) = Sentence.mark_mine c s.
Proof. apply mark_mine_absent. rewrite cells_mark_mine. set_solver. Qed.

End sentence.

(** C6: [known_mines] answers the sentence's cells exactly when the count
    equals the number of cells, and [None] otherwise; [known_safes] answers
    the cells exactly when the count is 0, and [None] otherwise.  For the
    empty sentence with count 0 [known_mines] is the empty set, and
    [{(0,0),(0,1)} = 2] yields both of its cells as mines. *)
Theorem known_mines_known_safes_spec :
  (∀ s X, Sentence.known_mines s = Some X ↔
          X = cells s ∧ count s = Z.of_nat (size (cells s))) ∧
  (∀ s, Sentence.known_mines s = None ↔
        count s ≠ Z.of_nat (size (cells s))) ∧
  (∀ s X, Sentence.known_safes s = Some X ↔ X = cells s ∧ count s = 0) ∧
  (∀ s, Sentence.known_safes s = None ↔ count s ≠ 0) ∧
  Sentence.known_mines (mkSentence ∅ 0) = Some ∅ ∧
  Sentence.known_mines (mkSentence {[ (0, 0); (0, 1) ]} 2)
    = Some {[ (0, 0); (0, 1) ]}.
Proof.
  repeat split; try (by vm_compute);
    unfold Sentence.known_mines, Sentence.known_safes in *;
    try case_decide; naive_solver.
Qed.

(** ** Marking cells in the engine *)

(** C7: marking the same cell safe twice leaves the engine (its three sets
    and every sentence) as marking it once does, and so does marking the same
    cell as a mine twice. *)
Theorem mark_twice_same_as_once (ai : MinesweeperAI) (c : Cell) :
  mark_safe c (mark_safe c ai) = mark_safe c ai ∧
  mark_mine c (mark_mine c ai) = mark_mine c ai.
Proof.
  unfold mark_safe, mark_mine; simpl. split; f_equal; try set_solver.
  - rewrite <- list_fmap_compose. apply list_fmap_ext. intros _ s _. simpl.
    apply sentence_mark_safe_twice.
  - rewrite <- list_fmap_compose. apply list_fmap_ext. intros _ s _. simpl.
    apply sentence_mark_mine_twice.
Qed.

Section marking.
Implicit Types (ai : MinesweeperAI) (c : Cell) (l : list Cell).

Lemma mark_safe_all_snoc l c ai :
  mark_safe_all (l ++ [c]) ai = mark_safe c (mark_safe_all l ai).
Proof. unfold mark_safe_all. by rewrite foldl_app. Qed.

Lemma mark_mine_all_snoc l c ai :
  mark_mine_all (l ++ [c]) ai = mark_mine c (mark_mine_all l ai).
Proof. unfold mark_mine_all. by rewrite foldl_app. Qed.

(** What a run of [mark_safe] calls leaves behind. *)
Lemma mark_safe_all_spec l ai :
  mark_safe_all l ai =
  mkAI (height ai) (width ai) (moves_made ai) (mines ai)
       (list_to_set l ∪ safes ai)
       ((fun s => mkSentence (cells s ∖ list_to_set l) (count s))
          <$> knowledge ai).
Proof.
  induction l as [|c l IH] using rev_ind.
  - destruct ai; simpl. f_equal; [set_solver|].
    rewrite <- (list_fmap_id knowledge0) at 1. apply list_fmap_ext.
    intros _ [X n] _; simpl. f_equal. set_solver.
  - rewrite mark_safe_all_snoc, IH. unfold mark_safe; simpl.
    rewrite list_to_set_app_L. f_equal; [set_solver|].
    rewrite <- list_fmap_compose. apply list_fmap_ext. intros _ s _; simpl.
    unfold Sentence.mark_safe; simpl. case_decide; f_equal; set_solver.
Qed.

(** The result does not depend on the order in which the copy of the set
    is iterated. *)
Lemma mark_safe_all_order l1 l2 ai :
  l1 ≡ₚ l2 → mark_safe_all l1 ai = mark_safe_all l2 ai.
Proof.
  intros Hp. rewrite !mark_safe_all_spec.
  assert (list_to_set l1 = (list_to_set l2 : gset Cell)) as ->; [|done].
  apply set_eq. intros c. rewrite !elem_of_list_to_set. by rewrite Hp.
Qed.

Lemma mark_mine_swap c1 c2 ai :
  mark_mine c1 (mark_mine c2 ai) = mark_mine c2 (mark_mine c1 ai).
Proof.
  unfold mark_mine; simpl. f_equal; [set_solver|].
  rewrite <- !list_fmap_compose. apply list_fmap_ext. intros _ s _; simpl.
  unfold Sentence.mark_mine.
  repeat (case_decide; simpl in * ); try (f_equal; first [set_solver | lia]);
    set_solver.
Qed.

Lemma mark_mine_all_cons c l ai :
  mark_mine_all (c :: l) ai = mark_mine c (mark_mine_all l ai).
Proof.
  revert ai. induction l as [|c' l IH] using rev_ind; intros ai; [done|].
  rewrite app_comm_cons, !mark_mine_all_snoc, IH. apply mark_mine_swap.
Qed.

Lemma mark_mine_all_order l1 l2 ai :
  l1 ≡ₚ l2 → mark_mine_all l1 ai = mark_mine_all l2 ai.
Proof.
  intros Hp. induction Hp as [|c l1 l2 _ IH|c1 c2 l|l1 l2 l3 _ IH1 _ IH2].
  - done.
  - by rewrite !mark_mine_all_cons, IH.
  - rewrite !mark_mine_all_cons. apply mark_mine_swap.
  - congruence.
Qed.

(** The frame of a run of [mark_mine] calls, and what it does to the cell
    sets. *)
Lemma mark_mine_all_spec l ai :
  height (mark_mine_all l ai) = height ai ∧
  width (mark_mine_all l ai) = width ai ∧
  moves_made (mark_mine_all l ai) = moves_made ai ∧
  safes (mark_mine_all l ai) = safes ai ∧
  mines (mark_mine_all l ai) = list_to_set l ∪ mines ai ∧
  cells <$> knowledge (mark_mine_all l ai)
    = (fun X => X ∖ list_to_set l) <$> (cells <$> knowledge ai).
Proof.
  induction l as [|c l IH] using rev_ind.
  - simpl. repeat split; [set_solver|].
    rewrite <- (list_fmap_id (cells <$> _)) at 1. apply list_fmap_ext.
    intros _ X _; simpl. set_solver.
  - rewrite mark_mine_all_snoc. unfold mark_mine; simpl.
    destruct IH as (-> & -> & -> & -> & -> & IH).
    rewrite list_to_set_app_L. repeat split; [set_solver|].
    rewrite <- list_fmap_compose.
    rewrite (list_fmap_ext (cells ∘ Sentence.mark_mine c)
               ((fun X => X ∖ {[c]}) ∘ cells) (knowledge (mark_mine_all l ai)))
      by (intros; apply cells_mark_mine).
    rewrite list_fmap_compose, IH, <- !list_fmap_compose.
    apply list_fmap_ext. intros _ s _; simpl. set_solver.
Qed.

End marking.

(** ** The first loop of a pass: drawing conclusions *)

Section conclude.
Implicit Types (ai : MinesweeperAI) (c : Cell) (kb : list Sentence).

Lemma live_narrowed (R : gset Cell) (Xs : list (gset Cell)) :
  ⋃ ((fun X => X ∖ R) <$> Xs) = ⋃ Xs ∖ R.
Proof.
  induction Xs as [|X Xs IH]; [set_solver|].
  rewrite fmap_cons, !union_list_cons, IH. set_solver.
Qed.

Lemma elem_of_live c kb : c ∈ live kb ↔ ∃ s, s ∈ kb ∧ c ∈ cells s.
Proof.
  unfold live. rewrite elem_of_union_list. split.
  - intros (X & (s & -> & Hs)%list_elem_of_fmap & Hc). eauto.
  - intros (s & Hs & Hc). exists (cells s). split; [|done].
    apply list_elem_of_fmap. eauto.
Qed.

Lemma narrowed_refl ai : narrowed ai ai.
Proof.
  unfold narrowed. split_and!; try done. exists ∅.
  rewrite <- (list_fmap_id (cells <$> _)) at 1. apply list_fmap_ext.
  intros _ X _; simpl. set_solver.
Qed.

Lemma narrowed_trans ai1 ai2 ai3 :
  narrowed ai1 ai2 → narrowed ai2 ai3 → narrowed ai1 ai3.
Proof.
  intros (? & ? & ? & ? & ? & R1 & E1) (? & ? & ? & ? & ? & R2 & E2).
  unfold narrowed.
  split_and!; [congruence | congruence | congruence | set_solver | set_solver |].
  exists (R1 ∪ R2). rewrite E2, E1, <- list_fmap_compose.
  apply list_fmap_ext. intros _ X _; simpl. set_solver.
Qed.

Lemma narrowed_length ai ai' :
  narrowed ai ai' → length (knowledge ai') = length (knowledge ai).
Proof.
  intros (_ & _ & _ & _ & _ & R & H).
  apply (f_equal length) in H. by rewrite !length_fmap in H.
Qed.

Lemma narrowed_live ai ai' :
  narrowed ai ai' → live (knowledge ai') ⊆ live (knowledge ai).
Proof.
  intros (_ & _ & _ & _ & _ & R & H). unfold live.
  rewrite H, live_narrowed. set_solver.
Qed.

Lemma narrowed_mark_safe_all l ai : narrowed ai (mark_safe_all l ai).
Proof.
  rewrite mark_safe_all_spec. unfold narrowed; simpl.
  split_and!; try done; try set_solver.
  exists (list_to_set l). by rewrite <- !list_fmap_compose.
Qed.

Lemma narrowed_mark_mine_all l ai : narrowed ai (mark_mine_all l ai).
Proof.
  destruct (mark_mine_all_spec l ai) as (? & ? & ? & ? & ? & ?).
  unfold narrowed. split_and!; [done | done | done | set_solver | set_solver |].
  by exists (list_to_set l).
Qed.

(** Marking every cell of a non-empty sentence of the knowledge base
    takes cells out of the live set. *)
Lemma live_shrinks ai ai' i s :
  knowledge ai !! i = Some s → cells s ≠ ∅ →
  cells <$> knowledge ai'
    = (fun X => X ∖ list_to_set (elements (cells s))) <$> (cells <$> knowledge ai) →
  live (knowledge ai') ⊂ live (knowledge ai).
Proof.
  intros Hi Hne H. unfold live at 1. rewrite H, live_narrowed.
  fold (live (knowledge ai)).
  apply set_choose_L in Hne as [c Hc].
  assert (c ∈ live (knowledge ai)).
  { apply elem_of_live. exists s. split; [|done].
    by eapply list_elem_of_lookup_2. }
  assert (c ∈ (list_to_set (elements (cells s)) : gset Cell)).
  { by rewrite elem_of_list_to_set, elem_of_elements. }
  set_solver.
Qed.

(** One iteration either changes nothing, flag included, or raises the
    flag and takes cells out of the live set. *)
Lemma conclude_at_spec i ai found :
  narrowed ai (conclude_at i (ai, found)).1 ∧
  (conclude_at i (ai, found) = (ai, found) ∨
   (conclude_at i (ai, found)).2 = true ∧
   live (knowledge (conclude_at i (ai, found)).1) ⊂ live (knowledge ai)).
Proof.
  unfold conclude_at.
  destruct (knowledge ai !! i) as [s|] eqn:Hi;
    [|split; [apply narrowed_refl | by left]].
  destruct (truthy (Sentence.known_safes s)) eqn:Hs.
  - apply truthy_spec in Hs as (X & HX & Hne).
    unfold Sentence.known_safes in HX. case_decide; [|done].
    injection HX as <-.
    pose proof (narrowed_mark_safe_all (elements (cells s)) ai) as Hn1.
    assert (live (knowledge (mark_safe_all (elements (cells s)) ai))
              ⊂ live (knowledge ai)) as Hl1.
    { eapply live_shrinks; [done..|]. rewrite mark_safe_all_spec; simpl.
      by rewrite <- !list_fmap_compose. }
    set (ai1 := mark_safe_all (elements (cells s)) ai) in *.
    destruct (knowledge ai1 !! i) as [s1|] eqn:Hi1; [|split; [done|by right]].
    destruct (truthy (Sentence.known_mines s1)); simpl; [|split; [done|by right]].
    pose proof (narrowed_mark_mine_all (elements (cells s1)) ai1) as Hn2.
    split; [by eapply narrowed_trans|]. right. split; [done|].
    apply narrowed_live in Hn2. set_solver.
  - rewrite Hi. destruct (truthy (Sentence.known_mines s)) eqn:Hm; simpl;
      [|split; [apply narrowed_refl | by left]].
    apply truthy_spec in Hm as (X & HX & Hne).
    unfold Sentence.known_mines in HX. case_decide; [|done].
    injection HX as <-.
    split; [apply narrowed_mark_mine_all|]. right. split; [done|].
    eapply live_shrinks; [done..|].
    by destruct (mark_mine_all_spec (elements (cells s)) ai) as (_&_&_&_&_&->).
Qed.

Lemma conclude_loop_spec (idx : list nat) ai found :
  let st := foldl (fun st i => conclude_at i st) (ai, found) idx in
  narrowed ai st.1 ∧
  (st = (ai, found) ∨ st.2 = true ∧ live (knowledge st.1) ⊂ live (knowledge ai)).
Proof.
  revert ai found. induction idx as [|i idx IH]; intros ai found; cbn [foldl].
  { split; [apply narrowed_refl | by left]. }
  destruct (conclude_at_spec i ai found) as [Hn Hc].
  destruct (conclude_at i (ai, found)) as [ai1 found1] eqn:E; cbn [fst snd] in *.
  destruct (IH ai1 found1) as [Hn' Hc'].
  split; [by eapply narrowed_trans|].
  destruct Hc as [[= -> ->] | [-> Hl]]; [done|]. right.
  destruct Hc' as [-> | [-> Hl']]; [done|]. split; [done|]. set_solver.
Qed.

(** The first loop of a pass either leaves the engine as it was, with the
    flag down, or raises the flag and shrinks the live set. *)
Lemma conclude_spec ai :
  narrowed ai (conclude ai).1 ∧
  (conclude ai = (ai, false) ∨
   (conclude ai).2 = true ∧
   live (knowledge (conclude ai).1) ⊂ live (knowledge ai)).
Proof. apply conclude_loop_spec. Qed.

End conclude.

(** ** Passes and the loop *)

Section loop.
Implicit Types (ai : MinesweeperAI) (c : Cell) (kb : list Sentence).

Lemma pass_unfold ai :
  pass ai =
  match newly_inferred (knowledge (conclude ai).1) with
  | [] => conclude ai
  | _ :: _ =>
      (mkAI (height (conclude ai).1) (width (conclude ai).1)
            (moves_made (conclude ai).1) (mines (conclude ai).1)
            (safes (conclude ai).1)
            (knowledge (conclude ai).1
               ++ newly_inferred (knowledge (conclude ai).1)), true)
  end.
Proof. unfold pass. by destruct (conclude ai) as [ai1 found]. Qed.

Lemma knowledge_pass ai :
  knowledge (pass ai).1
  = knowledge (conclude ai).1 ++ newly_inferred (knowledge (conclude ai).1).
Proof.
  rewrite pass_unfold.
  destruct (newly_inferred _) eqn:E; simpl; [by rewrite app_nil_r | done].
Qed.

(** A pass keeps the board size and the moves made, and never forgets a
    mine or a safe cell. *)
Lemma pass_frame ai :
  height (pass ai).1 = height ai ∧ width (pass ai).1 = width ai ∧
  moves_made (pass ai).1 = moves_made ai ∧
  mines ai ⊆ mines (pass ai).1 ∧ safes ai ⊆ safes (pass ai).1.
Proof.
  destruct (conclude_spec ai) as [(? & ? & ? & ? & ? & _) _].
  rewrite pass_unfold. by destruct (newly_inferred _).
Qed.

(** A pass that ends with the flag down changed nothing. *)
Lemma pass_quiet ai ai' : pass ai = (ai', false) → ai' = ai.
Proof.
  rewrite pass_unfold. destruct (conclude_spec ai) as [_ Hc].
  destruct (newly_inferred _); [|done].
  intros E. rewrite E in Hc. simpl in Hc.
  destruct Hc as [[= ->] | [? _]]; done.
Qed.

Lemma deduce_frame fuel ai ai' :
  deduce fuel ai = Some ai' →
  height ai' = height ai ∧ width ai' = width ai ∧
  moves_made ai' = moves_made ai ∧
  mines ai ⊆ mines ai' ∧ safes ai ⊆ safes ai'.
Proof.
  revert ai. induction fuel as [|fuel IH]; intros ai; [done|]. simpl.
  pose proof (pass_frame ai) as (? & ? & ? & ? & ?).
  destruct (pass ai) as [ai1 [|]]; simpl in *.
  - intros (? & ? & ? & ? & ?)%IH.
    split_and!; [congruence.. | set_solver | set_solver].
  - by intros [= <-].
Qed.

(** The state the loop returns is one on which a pass finds nothing: no
    conclusion is drawn and no sentence is appended. *)
Lemma deduce_quiescent fuel ai ai' :
  deduce fuel ai = Some ai' → pass ai' = (ai', false).
Proof.
  revert ai. induction fuel as [|fuel IH]; intros ai; [done|]. simpl.
  destruct (pass ai) as [ai1 [|]] eqn:E; [apply IH|].
  intros [= <-]. by rewrite (pass_quiet _ _ E) in E |- *.
Qed.

(** More fuel does not change what the loop returns. *)
Lemma deduce_fuel fuel fuel' ai ai' :
  deduce fuel ai = Some ai' → (fuel ≤ fuel')%nat →
  deduce fuel' ai = Some ai'.
Proof.
  revert fuel' ai. induction fuel as [|fuel IH]; intros fuel' ai; [done|].
  intros H Hle. destruct fuel' as [|fuel']; [lia|]. simpl in *.
  destruct (pass ai) as [ai1 [|]]; [|done]. apply IH; [done|lia].
Qed.

Lemma deduce_deterministic fuel1 fuel2 ai ai1 ai2 :
  deduce fuel1 ai = Some ai1 → deduce fuel2 ai = Some ai2 → ai1 = ai2.
Proof.
  intros H1 H2.
  apply (deduce_fuel _ (fuel1 `max` fuel2)%nat) in H1; [|lia].
  apply (deduce_fuel _ (fuel1 `max` fuel2)%nat) in H2; [|lia]. congruence.
Qed.

End loop.

(** ** Choosing moves *)

Section moves.
Implicit Types (ai : MinesweeperAI) (c : Cell).

Lemma make_safe_move_in_Some order ai c :
  (make_safe_move_in order ai).1 = Some c → c ∈ order ∧ c ∉ moves_made ai.
Proof.
  simpl. intros [Hin Hc%bool_decide_eq_true]%find_some.
  by apply list_elem_of_In in Hin.
Qed.

Lemma make_safe_move_in_None order ai :
  (make_safe_move_in order ai).1 = None ↔ ∀ c, c ∈ order → c ∈ moves_made ai.
Proof.
  simpl. split.
  - intros H c Hc%list_elem_of_In.
    apply (find_none _ _ H) in Hc. apply bool_decide_eq_false in Hc.
    by apply dec_stable.
  - intros H. destruct (find _ order) as [c|] eqn:E; [|done].
    apply find_some in E as [Hin Hc%bool_decide_eq_true].
    apply list_elem_of_In in Hin. naive_solver.
Qed.

Lemma elem_of_range a b i : i ∈ range a b ↔ a ≤ i < b.
Proof. unfold range. rewrite elem_of_seqZ. lia. Qed.

Lemma NoDup_range a b : NoDup (range a b).
Proof. apply NoDup_seqZ. Qed.

Lemma elem_of_possible_moves ai c :
  c ∈ possible_moves ai ↔
  in_bounds ai c ∧ (c ∉ moves_made ai) ∧ (c ∉ mines ai).
Proof.
  unfold possible_moves, in_bounds. destruct c as [i j]; simpl.
  rewrite list_elem_of_bind. setoid_rewrite list_elem_of_bind.
  setoid_rewrite elem_of_range. split.
  - intros (i' & (j' & Hc & Hj) & Hi). case_decide; [|set_solver].
    apply list_elem_of_singleton in Hc as [= -> ->]. naive_solver lia.
  - intros ([Hi Hj] & Hm & Hn). exists i. split; [|lia].
    exists j. split; [|lia]. rewrite decide_True by done. set_solver.
Qed.

Lemma NoDup_possible_moves ai : NoDup (possible_moves ai).
Proof.
  unfold possible_moves. apply NoDup_bind; [| |apply NoDup_range].
  - intros i1 i2 c _ _ (j1 & H1 & _)%list_elem_of_bind
                        (j2 & H2 & _)%list_elem_of_bind.
    repeat case_decide; set_solver.
  - intros i _. apply NoDup_bind; [| |apply NoDup_range].
    + intros j1 j2 c _ _ H1 H2. repeat case_decide; set_solver.
    + intros j _. case_decide; [apply NoDup_singleton | apply NoDup_nil_2].
Qed.

Lemma make_random_move_value rnd ai :
  (make_random_move rnd ai).1 = choice rnd (possible_moves ai).
Proof. unfold make_random_move. by destruct (possible_moves ai). Qed.

Lemma choice_None {A} rnd (l : list A) : choice rnd l = None ↔ l = [].
Proof.
  unfold choice. rewrite lookup_ge_None. destruct l as [|x l]; simpl.
  - split; [done | lia].
  - split; [|done]. intros H.
    pose proof (Nat.mod_upper_bound rnd (S (length l))). lia.
Qed.

End moves.

(** C9: [make_safe_move], whatever the order in which it walks the safe
    set, and [make_random_move], whatever the generator draws, hand back the
    engine as they found it: same moves, mines, safe cells and sentences. *)
Theorem queries_leave_engine_unchanged
    (ai : MinesweeperAI) (order : list Cell) (rnd : nat) :
  (make_safe_move_in order ai).2 = ai ∧
  (make_safe_move ai).2 = ai ∧
  (make_random_move rnd ai).2 = ai.
Proof.
  split_and!; [done | done |].
  unfold make_random_move. by destruct (possible_moves ai).
Qed.

(** C8: [make_random_move] picks from a list that holds every cell of the
    board that is neither a move made nor a known mine, each once, at the
    index the generator draws, so a uniform draw is a uniform cell; it
    returns [None] exactly when the list is empty.  An engine whose safe
    cells are all played and whose other board cells are all known mines gets
    [None] from both [make_random_move] and [make_safe_move]. *)
Theorem make_random_move_spec (ai : MinesweeperAI) :
  NoDup (possible_moves ai) ∧
  (∀ c, c ∈ possible_moves ai ↔
        in_bounds ai c ∧ (c ∉ moves_made ai) ∧ (c ∉ mines ai)) ∧
  (∀ rnd, (make_random_move rnd ai).1
          = possible_moves ai !! (rnd `mod` length (possible_moves ai))%nat) ∧
  (∀ k, (k < length (possible_moves ai))%nat →
        (make_random_move k ai).1 = possible_moves ai !! k) ∧
  (∀ rnd c, (make_random_move rnd ai).1 = Some c → c ∈ possible_moves ai) ∧
  (∀ rnd, (make_random_move rnd ai).1 = None ↔ possible_moves ai = []) ∧
  (safes ai = moves_made ai →
   (∀ c, in_bounds ai c → c ∉ moves_made ai → c ∈ mines ai) →
   (∀ rnd, (make_random_move rnd ai).1 = None) ∧
   (∀ order, iteration_order (safes ai) order →
             (make_safe_move_in order ai).1 = None)).
Proof.
  split_and!.
  - apply NoDup_possible_moves.
  - apply elem_of_possible_moves.
  - intros rnd. by rewrite make_random_move_value.
  - intros k Hk. rewrite make_random_move_value. unfold choice.
    by rewrite Nat.mod_small.
  - intros rnd c. rewrite make_random_move_value. unfold choice.
    apply list_elem_of_lookup_2.
  - intros rnd. rewrite make_random_move_value. apply choice_None.
  - intros Hs Hrest. split.
    + intros rnd. rewrite make_random_move_value. apply choice_None.
      destruct (possible_moves ai) as [|c l] eqn:E; [done|]. exfalso.
      assert (c ∈ possible_moves ai) as Hc by (rewrite E; left).
      apply elem_of_possible_moves in Hc. naive_solver.
    + intros order Ho. apply make_safe_move_in_None. intros c Hc.
      rewrite <- Hs. apply elem_of_elements. by rewrite <- Ho.
Qed.

(** An engine with nothing left to try on a 1x2 board. *)
Lemma make_random_move_spec_witness :
  (make_random_move 0 (mkAI 1 2 {[ (0, 0) ]} {[ (0, 1) ]} {[ (0, 0) ]} [])).1
    = None ∧
  (make_safe_move (mkAI 1 2 {[ (0, 0) ]} {[ (0, 1) ]} {[ (0, 0) ]} [])).1
    = None.
Proof.
  pose proof (make_random_move_spec
                (mkAI 1 2 {[ (0, 0) ]} {[ (0, 1) ]} {[ (0, 0) ]} []))
    as (_ & _ & _ & _ & _ & _ & H).
  destruct H as [H1 H2].
  - reflexivity.
  - intros [i j] [Hi Hj] Hc; simpl in *.
    assert (i = 0) as -> by lia.
    assert (j = 0 ∨ j = 1) as [-> | ->] by lia; set_solver.
  - split; [apply H1 | apply H2; unfold iteration_order; reflexivity].
Defined.

(** ** The second loop of a pass: subset resolution *)

Section resolution.
Implicit Types (ai : MinesweeperAI) (s : Sentence) (kb : list Sentence).

Lemma elem_of_infer_pair kb s1 s2 s :
  s ∈ infer_pair kb s1 s2 ↔
  s1 ≠ s2 ∧ cells s2 ⊆ cells s1 ∧
  s = mkSentence (cells s1 ∖ cells s2) (count s1 - count s2) ∧ s ∉ kb.
Proof.
  unfold infer_pair.
  destruct (Sentence.eqb s1 s2) eqn:E.
  { apply eqb_eq in E. set_solver. }
  apply eqb_neq in E. case_decide; [|set_solver].
  cbn zeta. destruct (existsb _ kb) eqn:Ex.
  - apply existsb_eqb in Ex. split; [set_solver|].
    by intros (_ & _ & -> & ?).
  - assert (¬ mkSentence (cells s1 ∖ cells s2) (count s1 - count s2) ∈ kb)
      by (rewrite <- existsb_eqb; congruence).
    rewrite list_elem_of_singleton. naive_solver.
Qed.

(** The sentences a pass appends: the differences of two different
    sentences of the knowledge base, one inside the other, that the
    knowledge base did not hold yet. *)
Lemma elem_of_newly_inferred kb s :
  s ∈ newly_inferred kb ↔
  (s ∉ kb) ∧
  ∃ s1 s2, s1 ∈ kb ∧ s2 ∈ kb ∧ s1 ≠ s2 ∧ cells s2 ⊆ cells s1 ∧
           s = mkSentence (cells s1 ∖ cells s2) (count s1 - count s2).
Proof.
  unfold newly_inferred. rewrite list_elem_of_bind.
  setoid_rewrite list_elem_of_bind. setoid_rewrite elem_of_infer_pair.
  split.
  - intros (s1 & (s2 & (Hne & Hsub & Hs & Hn) & H2) & H1).
    split; [done|]. by exists s1, s2.
  - intros (Hn & s1 & s2 & H1 & H2 & Hne & Hsub & Hs).
    exists s1. split; [|done]. by exists s2.
Qed.

Lemma resolved_in_pass ai s1 s2 :
  s1 ∈ knowledge (conclude ai).1 → s2 ∈ knowledge (conclude ai).1 →
  s1 ≠ s2 → cells s2 ⊆ cells s1 →
  mkSentence (cells s1 ∖ cells s2) (count s1 - count s2)
    ∈ knowledge (pass ai).1.
Proof.
  intros H1 H2 Hne Hsub. rewrite knowledge_pass, elem_of_app.
  destruct (decide (mkSentence (cells s1 ∖ cells s2) (count s1 - count s2)
                      ∈ knowledge (conclude ai).1)); [by left|right].
  apply elem_of_newly_inferred. split; [done|]. by exists s1, s2.
Qed.

Lemma live_app kb1 kb2 : live (kb1 ++ kb2) = live kb1 ∪ live kb2.
Proof. unfold live. by rewrite fmap_app, union_list_app_L. Qed.

Lemma live_newly_inferred kb : live (newly_inferred kb) ⊆ live kb.
Proof.
  intros c (s & Hs & Hc)%elem_of_live.
  apply elem_of_newly_inferred in Hs as (_ & s1 & s2 & ? & _ & _ & _ & ->).
  apply elem_of_live. exists s1. set_solver.
Qed.

End resolution.

(** C4, as the code has it: a sentence derived by subset resolution is
    appended exactly when the knowledge base, as it stands when the
    resolution step starts, holds no sentence with the same cells and the
    same count; a pass appends the derived sentences of that step and
    nothing else. *)
Theorem derived_sentence_appended_when_absent :
  (∀ kb s,
     s ∈ newly_inferred kb ↔
     (s ∉ kb) ∧
     ∃ s1 s2, s1 ∈ kb ∧ s2 ∈ kb ∧ s1 ≠ s2 ∧ cells s2 ⊆ cells s1 ∧
              s = mkSentence (cells s1 ∖ cells s2) (count s1 - count s2)) ∧
  (∀ ai, knowledge (pass ai).1
         = knowledge (conclude ai).1
             ++ newly_inferred (knowledge (conclude ai).1)).
Proof. split; [apply elem_of_newly_inferred | apply knowledge_pass]. Qed.

(** C4 fails as stated: on the 3x3 board with its mine at (2,2), observing
    (0,0) and then (0,1), both with count 0, leaves a knowledge base that
    holds the sentence [{} = 0] twice. *)
Lemma knowledge_base_holds_equal_sentences :
  consistent corner_board (0, 0) 0 ∧ consistent corner_board (0, 1) 0 ∧
  ∃ ai1 ai2,
    add_knowledge 2 (0, 0) 0 (init 3 3) = Some ai1 ∧
    add_knowledge 2 (0, 1) 0 ai1 = Some ai2 ∧
    knowledge ai2 = [mkSentence ∅ 0; mkSentence ∅ 0] ∧
    ¬ NoDup (knowledge ai2).
Proof.
  split; [by vm_compute|]. split; [by vm_compute|].
  eexists _, _. split; [by vm_compute|]. split; [by vm_compute|].
  match goal with |- ?P ∧ _ => assert P as Hk by (by vm_compute) end.
  split; [exact Hk|]. rewrite Hk. intros Hn.
  inversion Hn as [|s kb Hnotin _]. apply Hnotin. by left.
Qed.

(** C3: for any two different sentences A and B that the knowledge base
    holds when a pass reaches its subset-resolution step, with the cells of B
    among those of A, the knowledge base holds [(A.cells - B.cells,
    A.count - B.count)] when the pass ends.  From [{(1,1),(1,2),(2,1)} = 1]
    and [{(1,1),(1,2)} = 1] the first pass draws no conclusion, derives
    [{(2,1)} = 0], and the loop then returns with (2,1) known safe. *)
Theorem subset_resolution_derives :
  (∀ ai A B,
     A ∈ knowledge (conclude ai).1 → B ∈ knowledge (conclude ai).1 →
     A ≠ B → cells B ⊆ cells A →
     mkSentence (cells A ∖ cells B) (count A - count B)
       ∈ knowledge (pass ai).1) ∧
  conclude scenario_ai = (scenario_ai, false) ∧
  knowledge (pass scenario_ai).1
    = [scenario_A; scenario_B; mkSentence {[ (2, 1) ]} 0] ∧
  ∃ ai', (∀ fuel, (3 ≤ fuel)%nat → deduce fuel scenario_ai = Some ai') ∧
         safes ai' = {[ (2, 1) ]}.
Proof.
  split; [apply resolved_in_pass|].
  split; [by vm_compute|]. split; [by vm_compute|].
  eexists. split; [|shelve].
  intros fuel Hf. eapply (deduce_fuel 3); [|done]. by vm_compute.
  Unshelve. by vm_compute.
Qed.

(** The general rule of C3 applied to the two sentences of the scenario. *)
Lemma subset_resolution_derives_witness :
  mkSentence (cells scenario_A ∖ cells scenario_B)
             (count scenario_A - count scenario_B)
    ∈ knowledge (pass scenario_ai).1.
Proof.
  apply (proj1 subset_resolution_derives scenario_ai scenario_A scenario_B).
  - vm_compute. left.
  - vm_compute. right. left.
  - intros E. by apply (f_equal (fun s => size (cells s))) in E.
  - unfold scenario_A, scenario_B; simpl. set_solver.
Defined.

(** C1 fails as stated: after the single observation of (0,0) with count 0
    on a fresh 3x3 engine, the seven cells other than (0,0) and (2,2) are
    not all known safe, however long the loop is allowed to run. *)
Lemma first_observation_does_not_reach_all_cells :
  ¬ ∃ fuel ai',
      add_knowledge fuel (0, 0) 0 (init 3 3) = Some ai' ∧
      ({[ (0, 1); (0, 2); (1, 0); (1, 1); (1, 2); (2, 0); (2, 1) ]} : gset Cell)
        ⊆ safes ai'.
Proof.
  intros (fuel & ai' & H & Hsub).
  assert (add_knowledge 2 (0, 0) 0 (init 3 3) = Some after_first_observation)
    as H2 by (by vm_compute).
  rewrite (deduce_deterministic _ _ _ _ _ H H2) in Hsub. simpl in Hsub.
  assert ((0, 2) ∈ ({[ (0, 0); (0, 1); (1, 0); (1, 1) ]} : gset Cell)) as Hc
    by set_solver.
  set_solver.
Qed.

(** C1, as the code has it: on a fresh 3x3 engine, the observation of (0,0)
    with count 0, which the board with its mine at (2,2) gives, returns after
    two passes with exactly (0,0) and its three neighbours known safe, and
    [make_safe_move], whatever the order in which it walks the safe set,
    then returns one of these three neighbours, none of which is (2,2) or
    played. *)
Theorem first_observation_3x3 :
  consistent corner_board (0, 0) 0 ∧
  ∃ ai',
    (∀ fuel, (2 ≤ fuel)%nat →
             add_knowledge fuel (0, 0) 0 (init 3 3) = Some ai') ∧
    safes ai' = {[ (0, 0); (0, 1); (1, 0); (1, 1) ]} ∧
    moves_made ai' = {[ (0, 0) ]} ∧
    ∀ order, iteration_order (safes ai') order →
      ∃ c, (make_safe_move_in order ai').1 = Some c ∧
           c ∈ ({[ (0, 1); (1, 0); (1, 1) ]} : gset Cell) ∧
           c ≠ (2, 2) ∧ c ∉ moves_made ai'.
Proof.
  split; [by vm_compute|].
  exists after_first_observation.
  split.
  { intros fuel Hf. eapply (deduce_fuel 2); [|done]. by vm_compute. }
  split; [reflexivity|]. split; [reflexivity|].
  intros order Ho. unfold iteration_order in Ho. cbn [safes moves_made] in *.
  destruct (make_safe_move_in order after_first_observation).1
    as [c|] eqn:E.
  - apply make_safe_move_in_Some in E as [Hin Hc]. simpl in Hc.
    rewrite Ho, elem_of_elements in Hin.
    exists c. split; [done|]. split; [set_solver|]. split; [|done].
    intros ->. set_solver.
  - exfalso. rewrite make_safe_move_in_None in E. simpl in E.
    assert ((0, 1) ∈ order) as Hin.
    { rewrite Ho, elem_of_elements. set_solver. }
    apply E in Hin. set_solver.
Qed.

(** The move chosen when the safe set is walked in the order of
    [elements]. *)
Lemma first_observation_3x3_witness :
  ∃ ai' c,
    add_knowledge 2 (0, 0) 0 (init 3 3) = Some ai' ∧
    (make_safe_move ai').1 = Some c ∧
    c ∈ ({[ (0, 1); (1, 0); (1, 1) ]} : gset Cell).
Proof.
  destruct first_observation_3x3 as (_ & ai' & Hrun & _ & _ & Hmove).
  destruct (Hmove (elements (safes ai'))) as (c & Hc & Hin & _).
  { unfold iteration_order. reflexivity. }
  exists ai', c. split; [apply Hrun; lia | by split].
Defined.

(** ** Moves made are known safe *)

Lemma add_knowledge_frame fuel cell n ai ai' :
  add_knowledge fuel cell n ai = Some ai' →
  height ai' = height ai ∧ width ai' = width ai ∧
  moves_made ai' = {[cell]} ∪ moves_made ai ∧
  mines ai ⊆ mines ai' ∧ {[cell]} ∪ safes ai ⊆ safes ai'.
Proof.
  unfold add_knowledge. intros (? & ? & ? & ? & ?)%deduce_frame.
  simpl in *. done.
Qed.

(** C10: in every engine state reached from a fresh engine by calls of
    [add_knowledge], [mark_mine], [mark_safe], [make_safe_move] and
    [make_random_move], every move made is a known safe cell. *)
Theorem moves_made_are_safe (h w : Z) (ai : MinesweeperAI) :
  reachable h w ai → moves_made ai ⊆ safes ai.
Proof.
  induction 1 as [|ai cell n fuel ai' _ IH Hadd|ai cell _ IH|ai cell _ IH
                 |ai order _ IH _|ai rnd _ IH].
  - done.
  - apply add_knowledge_frame in Hadd as (_ & _ & -> & _ & Hs). set_solver.
  - done.
  - simpl. set_solver.
  - done.
  - unfold make_random_move. by destruct (possible_moves ai).
Qed.

(** The engine after its first observation on the 3x3 board, asked for a
    safe move. *)
Lemma moves_made_are_safe_witness :
  add_knowledge 2 (0, 0) 0 (init 3 3) = Some after_first_observation ∧
  moves_made (make_safe_move after_first_observation).2
    ⊆ safes (make_safe_move after_first_observation).2.
Proof.
  assert (add_knowledge 2 (0, 0) 0 (init 3 3) = Some after_first_observation)
    as Hadd by (vm_compute; reflexivity).
  split; [exact Hadd|].
  apply (moves_made_are_safe 3 3).
  apply (reach_make_safe_move 3 3 after_first_observation
           (elements (safes after_first_observation)));
    [|unfold iteration_order; reflexivity].
  exact (reach_add_knowledge 3 3 (init 3 3) (0, 0) 0 2
           after_first_observation (reach_init 3 3) Hadd).
Defined.

(** ** Sentences that tell the truth *)

Section truth.
Context (P : Cell → Prop) `{!∀ c, Decision (P c)}.
Implicit Types (ai : MinesweeperAI) (s : Sentence) (c : Cell)
               (X Y : gset Cell) (kb : list Sentence).

Lemma size_filter_remove_other X c :
  ¬ P c → size (filter P (X ∖ {[c]})) = size (filter P X).
Proof.
  intros Hc. f_equal. apply set_eq. intros c'.
  rewrite !elem_of_filter. set_solver.
Qed.

Lemma size_filter_difference X Y :
  Y ⊆ X →
  size (filter P (X ∖ Y)) = (size (filter P X) - size (filter P Y))%nat.
Proof.
  intros Hsub. rewrite <- size_difference.
  - f_equal. apply set_eq. intros c.
    rewrite elem_of_difference, !elem_of_filter. set_solver.
  - intros c. rewrite !elem_of_filter. set_solver.
Qed.

Lemma size_filter_mono X Y :
  Y ⊆ X → (size (filter P Y) ≤ size (filter P X))%nat.
Proof.
  intros Hsub. apply subseteq_size. intros c.
  rewrite !elem_of_filter. set_solver.
Qed.

Lemma sound_mark_safe c s :
  ¬ P c → sound P s → sound P (Sentence.mark_safe c s).
Proof.
  unfold sound, Sentence.mark_safe. intros Hc Hs. case_decide; [|done].
  simpl. by rewrite size_filter_remove_other.
Qed.

Lemma sound_mark_mine c s :
  P c → sound P s → sound P (Sentence.mark_mine c s).
Proof.
  unfold sound, Sentence.mark_mine. intros Hc Hs. case_decide; [|done].
  simpl. rewrite size_filter_difference by set_solver.
  assert (filter P ({[c]} : gset Cell) = {[c]}) as ->.
  { apply set_eq. intros c'. rewrite elem_of_filter. set_solver. }
  rewrite size_singleton.
  assert (size (filter P (cells s)) ≠ 0%nat).
  { apply size_non_empty_iff, (non_empty_inhabited c).
    apply elem_of_filter. done. }
  lia.
Qed.

Lemma sound_zero s c : sound P s → count s = 0 → c ∈ cells s → ¬ P c.
Proof.
  unfold sound. intros Hs H0 Hc HP.
  assert (size (filter P (cells s)) = 0%nat) as Hsz by lia.
  apply size_empty_iff in Hsz.
  assert (c ∈ filter P (cells s)) by (by apply elem_of_filter).
  set_solver.
Qed.

Lemma sound_full s c :
  sound P s → count s = Z.of_nat (size (cells s)) → c ∈ cells s → P c.
Proof.
  unfold sound. intros Hs Hf Hc.
  assert (filter P (cells s) = cells s) as Heq.
  { apply (set_subseteq_size_eq (filter P (cells s)) (cells s)); [|lia].
    intros c'. rewrite elem_of_filter. tauto. }
  rewrite <- Heq in Hc. by apply elem_of_filter in Hc as [? _].
Qed.

Lemma sound_difference s1 s2 :
  sound P s1 → sound P s2 → cells s2 ⊆ cells s1 →
  sound P (mkSentence (cells s1 ∖ cells s2) (count s1 - count s2)).
Proof.
  unfold sound. intros H1 H2 Hsub; simpl.
  rewrite size_filter_difference by done.
  pose proof (size_filter_mono _ _ Hsub). lia.
Qed.

(** Two sentences that tell the truth about the same cells are equal. *)
Lemma sound_same_cells s1 s2 :
  sound P s1 → sound P s2 → cells s1 = cells s2 → s1 = s2.
Proof.
  unfold sound. destruct s1, s2; simpl. intros -> -> ->. done.
Qed.

Lemma truthful_mark_safe c ai :
  ¬ P c → truthful P ai → truthful P (mark_safe c ai).
Proof.
  intros Hc (Hk & Hs & Hm). unfold truthful; simpl. split_and!.
  - apply Forall_fmap. eapply Forall_impl; [exact Hk|].
    intros s. by apply sound_mark_safe.
  - intros c' [->%elem_of_singleton | ?]%elem_of_union; auto.
  - done.
Qed.

Lemma truthful_mark_mine c ai :
  P c → truthful P ai → truthful P (mark_mine c ai).
Proof.
  intros Hc (Hk & Hs & Hm). unfold truthful; simpl. split_and!.
  - apply Forall_fmap. eapply Forall_impl; [exact Hk|].
    intros s. by apply sound_mark_mine.
  - done.
  - intros c' [->%elem_of_singleton | ?]%elem_of_union; auto.
Qed.

Lemma truthful_mark_safe_all l ai :
  (∀ c, c ∈ l → ¬ P c) → truthful P ai → truthful P (mark_safe_all l ai).
Proof.
  induction l as [|c l IH] using rev_ind; [done|]. intros Hl Ht.
  rewrite mark_safe_all_snoc. apply truthful_mark_safe; [|apply IH];
    [| |done]; intros; apply Hl; set_solver.
Qed.

Lemma truthful_mark_mine_all l ai :
  (∀ c, c ∈ l → P c) → truthful P ai → truthful P (mark_mine_all l ai).
Proof.
  induction l as [|c l IH] using rev_ind; [done|]. intros Hl Ht.
  rewrite mark_mine_all_snoc. apply truthful_mark_mine; [|apply IH];
    [| |done]; intros; apply Hl; set_solver.
Qed.

Lemma truthful_lookup ai i s :
  truthful P ai → knowledge ai !! i = Some s → sound P s.
Proof.
  intros (Hk & _) Hi. rewrite Forall_forall in Hk.
  apply Hk. by eapply list_elem_of_lookup_2.
Qed.

Lemma truthful_conclude_at i ai found :
  truthful P ai → truthful P (conclude_at i (ai, found)).1.
Proof.
  intros Ht. unfold conclude_at.
  destruct (knowledge ai !! i) as [s|] eqn:Hi; [|done].
  assert (∃ ai1 found1,
            (if truthy (Sentence.known_safes s)
             then (mark_safe_all (elements (cells s)) ai, true)
             else (ai, found)) = (ai1, found1) ∧ truthful P ai1)
    as (ai1 & found1 & -> & Ht1).
  { destruct (truthy (Sentence.known_safes s)) eqn:Hs; [|by eauto].
    eexists _, _. split; [done|].
    apply truthy_spec in Hs as (X & HX & _).
    unfold Sentence.known_safes in HX. case_decide; [|done].
    apply truthful_mark_safe_all; [|done].
    intros c Hc%elem_of_elements.
    eapply sound_zero; [by eapply truthful_lookup|done..]. }
  destruct (knowledge ai1 !! i) as [s1|] eqn:Hi1; [|done].
  destruct (truthy (Sentence.known_mines s1)) eqn:Hm; [|done]. simpl.
  apply truthy_spec in Hm as (X & HX & _).
  unfold Sentence.known_mines in HX. case_decide; [|done].
  apply truthful_mark_mine_all; [|done].
  intros c Hc%elem_of_elements.
  eapply sound_full; [by eapply truthful_lookup|done..].
Qed.

Lemma truthful_conclude ai : truthful P ai → truthful P (conclude ai).1.
Proof.
  unfold conclude. generalize (seq 0 (length (knowledge ai))) false.
  intros idx. revert ai. induction idx as [|i idx IH]; intros ai found Ht;
    cbn [foldl]; [done|].
  pose proof (truthful_conclude_at i ai found Ht) as Ht1.
  destruct (conclude_at i (ai, found)) as [ai1 found1]. by apply IH.
Qed.

Lemma sound_newly_inferred kb :
  Forall (sound P) kb → Forall (sound P) (newly_inferred kb).
Proof.
  rewrite !Forall_forall. intros Hk s Hs.
  apply elem_of_newly_inferred in Hs
    as (_ & s1 & s2 & H1 & H2 & _ & Hsub & ->).
  apply sound_difference; auto.
Qed.

Lemma truthful_pass ai : truthful P ai → truthful P (pass ai).1.
Proof.
  intros (Hk & Hs & Hm)%truthful_conclude. rewrite pass_unfold.
  destruct (newly_inferred _) as [|s kb] eqn:E; [done|].
  unfold truthful; simpl. split_and!; [|done..].
  apply Forall_app. split; [done|]. rewrite <- E.
  by apply sound_newly_inferred.
Qed.

Lemma truthful_deduce fuel ai ai' :
  deduce fuel ai = Some ai' → truthful P ai → truthful P ai'.
Proof.
  revert ai. induction fuel as [|fuel IH]; intros ai; [done|]. simpl.
  intros Hd Ht. apply truthful_pass in Ht.
  destruct (pass ai) as [ai1 [|]]; simpl in *; [by eapply IH|].
  by injection Hd as <-.
Qed.

(** What the engine knows to be a mine it does not know to be safe. *)
Lemma truthful_disjoint ai : truthful P ai → mines ai ∩ safes ai = ∅.
Proof. intros (_ & Hs & Hm). apply set_eq. intros c. set_solver. Qed.

End truth.

(** ** The loop stops *)

Section progress.
Context (P : Cell → Prop) `{!∀ c, Decision (P c)}.
Implicit Types (ai : MinesweeperAI) (s : Sentence) (c : Cell)
               (X U : gset Cell) (kb : list Sentence).

Lemma elem_of_subsets (l : list Cell) X :
  X ⊆ list_to_set l → X ∈ subsets l.
Proof.
  revert X. induction l as [|c l IH]; intros X HX; simpl.
  - assert (X = ∅) as -> by set_solver. by left.
  - apply elem_of_app. destruct (decide (c ∈ X)) as [Hc|Hc].
    + right. apply list_elem_of_fmap. exists (X ∖ {[c]}). split.
      * apply set_eq. intros c'. destruct (decide (c' = c)); set_solver.
      * apply IH. set_solver.
    + left. apply IH. set_solver.
Qed.

Lemma elem_of_powerset X U : X ⊆ U → X ∈ powerset U.
Proof.
  intros HX. unfold powerset. apply elem_of_list_to_set, elem_of_subsets.
  intros c Hc. apply elem_of_list_to_set, elem_of_elements. auto.
Qed.

Lemma elem_of_shapes X kb : X ∈ shapes kb ↔ ∃ s, s ∈ kb ∧ cells s = X.
Proof.
  unfold shapes. rewrite elem_of_list_to_set, list_elem_of_fmap.
  naive_solver.
Qed.

Lemma shapes_app kb1 kb2 : shapes (kb1 ++ kb2) = shapes kb1 ∪ shapes kb2.
Proof. unfold shapes. by rewrite fmap_app, list_to_set_app_L. Qed.

Lemma cells_subseteq_live s kb : s ∈ kb → cells s ⊆ live kb.
Proof. intros Hs c Hc. apply elem_of_live. eauto. Qed.

(** Among sentences that tell the truth, a sentence that is new has a
    cell set that is new. *)
Lemma new_sentence_new_shape kb s :
  Forall (sound P) kb → sound P s → s ∉ kb → cells s ∉ shapes kb.
Proof.
  intros Hk Hs Hn (s' & Hs' & Heq)%elem_of_shapes. apply Hn.
  rewrite Forall_forall in Hk.
  by rewrite (sound_same_cells P s s' Hs (Hk _ Hs') (eq_sym Heq)).
Qed.

Lemma live_pass ai : live (knowledge (pass ai).1) ⊆ live (knowledge ai).
Proof.
  destruct (conclude_spec ai) as [Hn%narrowed_live _].
  rewrite knowledge_pass, live_app.
  pose proof (live_newly_inferred (knowledge (conclude ai).1)). set_solver.
Qed.

(** A pass that ends with the flag up lowers the potential. *)
Lemma pass_progress U ai :
  truthful P ai → live (knowledge ai) ⊆ U → (pass ai).2 = true →
  (potential U (pass ai).1 < potential U ai)%nat.
Proof.
  intros Ht HU Hflag. unfold potential.
  assert (live (knowledge (pass ai).1) ⊆ live (knowledge (conclude ai).1))
    as Hl1.
  { rewrite knowledge_pass, live_app.
    pose proof (live_newly_inferred (knowledge (conclude ai).1)).
    set_solver. }
  destruct (conclude_spec ai) as [Hn [Hc | [_ Hlt]]].
  - (* no conclusion was drawn: a sentence with a new cell set came in *)
    assert (knowledge (conclude ai).1 = knowledge ai) as Hkb
      by (by rewrite Hc).
    rewrite Hkb in Hl1.
    pose proof (subseteq_size _ _ Hl1) as Hsz.
    rewrite pass_unfold, Hc in Hflag. cbn [fst] in Hflag.
    destruct (newly_inferred (knowledge ai)) as [|s kb'] eqn:E; [done|].
    assert (s ∈ newly_inferred (knowledge ai)) as Hs by (rewrite E; left).
    assert (sound P s) as Hsound.
    { pose proof (sound_newly_inferred P _ (proj1 Ht)) as Hf.
      rewrite Forall_forall in Hf. auto. }
    pose proof Hs as (Hnew & s1 & s2 & H1 & _ & _ & _ & Hdef)%elem_of_newly_inferred.
    assert (cells s ∉ shapes (knowledge ai))
      by (by apply new_sentence_new_shape; [apply Ht|..]).
    assert (cells s ∈ powerset U).
    { apply elem_of_powerset. etrans; [|exact HU]. etrans;
        [|apply (cells_subseteq_live s1 _ H1)]. rewrite Hdef; simpl.
      set_solver. }
    assert (cells s ∈ shapes (knowledge (pass ai).1)).
    { rewrite knowledge_pass, Hkb, E, shapes_app.
      apply elem_of_union_r, elem_of_shapes. exists s. split; [left|done]. }
    assert (shapes (knowledge ai) ⊆ shapes (knowledge (pass ai).1)).
    { rewrite knowledge_pass, Hkb, shapes_app. set_solver. }
    assert (powerset U ∖ shapes (knowledge (pass ai).1)
              ⊂ powerset U ∖ shapes (knowledge ai)) as Hsub by set_solver.
    apply subset_size in Hsub.
    assert (size (live (knowledge (pass ai).1)) * S (size (powerset U))
            ≤ size (live (knowledge ai)) * S (size (powerset U)))%nat
      by (apply Nat.mul_le_mono_r; lia).
    lia.
  - (* a conclusion was drawn: cells left the live set *)
    assert (live (knowledge (pass ai).1) ⊂ live (knowledge ai)) as Hsub
      by set_solver.
    apply subset_size in Hsub.
    assert (size (powerset U ∖ shapes (knowledge (pass ai).1))
            ≤ size (powerset U))%nat
      by (apply subseteq_size; set_solver).
    assert (S (size (live (knowledge (pass ai).1))) * S (size (powerset U))
            ≤ size (live (knowledge ai)) * S (size (powerset U)))%nat
      by (apply Nat.mul_le_mono_r; lia).
    lia.
Qed.

(** While the sentences tell the truth the loop returns: it reaches a
    pass that finds nothing. *)
Lemma deduce_terminates_bounded U (bound : nat) ai :
  (potential U ai < bound)%nat → truthful P ai →
  live (knowledge ai) ⊆ U →
  ∃ fuel ai', deduce fuel ai = Some ai'.
Proof.
  revert ai. induction bound as [|bound IH]; intros ai Hp Ht HU; [lia|].
  destruct (pass ai) as [ai1 found] eqn:E. destruct found.
  - destruct (IH ai1) as (fuel & ai' & Hd).
    + pose proof (pass_progress U ai Ht HU) as Hlt.
      rewrite E in Hlt. specialize (Hlt eq_refl). simpl in Hlt. lia.
    + pose proof (truthful_pass P ai Ht) as Ht1. by rewrite E in Ht1.
    + pose proof (live_pass ai) as Hl. rewrite E in Hl. simpl in Hl.
      set_solver.
    + exists (S fuel), ai'. simpl. by rewrite E.
  - exists 1%nat, ai1. simpl. by rewrite E.
Qed.

Lemma deduce_terminates ai :
  truthful P ai →
  ∃ fuel ai', deduce fuel ai = Some ai' ∧ pass ai' = (ai', false).
Proof.
  intros Ht.
  destruct (deduce_terminates_bounded (live (knowledge ai))
              (S (potential (live (knowledge ai)) ai)) ai)
    as (fuel & ai' & Hd); [lia | done | done |].
  exists fuel, ai'. split; [done|]. by eapply deduce_quiescent.
Qed.

End progress.

(** ** Observations that come from a board *)

Section board.
Context (g : Minesweeper.t).
Implicit Types (ai : MinesweeperAI) (c cell : Cell).

Lemma NoDup_window cell : NoDup (window cell).
Proof.
  unfold window. apply NoDup_bind; [| |apply NoDup_range].
  - intros i1 i2 c _ _ (j1 & H1 & _)%list_elem_of_bind
                        (j2 & H2 & _)%list_elem_of_bind.
    apply list_elem_of_singleton in H1, H2. congruence.
  - intros i _. apply NoDup_bind; [| |apply NoDup_range].
    + intros j1 j2 c _ _ H1 H2.
      apply list_elem_of_singleton in H1, H2. congruence.
    + intros j _. apply NoDup_singleton.
Qed.

Lemma nearby_fold_None cell (l : list Cell) :
  foldl (Minesweeper.nearby_step g cell) None l = None.
Proof. by induction l. Qed.

Lemma nearby_fold cell (l : list Cell) (a n : Z) :
  foldl (Minesweeper.nearby_step g cell) (Some a) l = Some n →
  n = a + Z.of_nat (length (filter (counted g cell) l)).
Proof.
  revert a. induction l as [|c l IH]; intros a; cbn [foldl].
  { intros [= ->]. simpl. lia. }
  unfold Minesweeper.nearby_step at 2. cbn [mbind option_bind].
  destruct (decide (c = cell)) as [->|Hne].
  { intros ->%IH. rewrite filter_cons_False; [done|].
    unfold counted. tauto. }
  destruct (decide (0 ≤ c.1 < Minesweeper.height g
                    ∧ 0 ≤ c.2 < Minesweeper.width g)) as [Hb|Hb].
  - destruct (Minesweeper.board_at g c.1 c.2) as [[|]|] eqn:E;
      cbn [mbind option_bind].
    + intros ->%IH. rewrite filter_cons_True; [simpl; lia|].
      unfold counted, mine, Minesweeper.is_mine. by rewrite E.
    + intros ->%IH. rewrite filter_cons_False; [done|].
      unfold counted, mine, Minesweeper.is_mine. rewrite E.
      intros (_ & [=]).
    + by rewrite nearby_fold_None.
  - intros ->%IH. rewrite filter_cons_False; [done|].
    unfold counted. tauto.
Qed.

Lemma size_filter_list_to_set (Q : Cell → Prop) `{!∀ c, Decision (Q c)}
    (l : list Cell) :
  NoDup l →
  size (filter Q (list_to_set l : gset Cell)) = length (filter Q l).
Proof.
  intros Hl.
  assert (filter Q (list_to_set l : gset Cell) = list_to_set (filter Q l))
    as ->.
  { apply set_eq. intros c.
    rewrite elem_of_filter, !elem_of_list_to_set, list_elem_of_filter.
    done. }
  apply size_list_to_set. by apply NoDup_filter.
Qed.

(** The count the board reports for a cell is the number of mines among
    the neighbours the engine collects for it. *)
Lemma nearby_mines_neighbors ai cell n :
  height ai = Minesweeper.height g → width ai = Minesweeper.width g →
  Minesweeper.nearby_mines g cell = Some n →
  sound (mine g) (mkSentence (neighbors ai cell) n).
Proof.
  intros Hh Hw Hn. apply nearby_fold in Hn. unfold sound; simpl.
  unfold neighbors.
  rewrite size_filter_list_to_set by apply NoDup_filter, NoDup_window.
  rewrite Hn, Z.add_0_l. do 2 f_equal.
  rewrite list_filter_filter. apply list_filter_iff.
  intros c. unfold counted, in_bounds. rewrite Hh, Hw. tauto.
Qed.

Lemma truthful_record_observation ai cell n :
  height ai = Minesweeper.height g → width ai = Minesweeper.width g →
  consistent g cell n → truthful (mine g) ai →
  truthful (mine g) (record_observation cell n ai).
Proof.
  intros Hh Hw (_ & Hsafe & Hn) Ht.
  assert (¬ mine g cell) as Hc by (unfold mine; congruence).
  pose proof (truthful_mark_safe (mine g) cell
                (mkAI (height ai) (width ai) ({[cell]} ∪ moves_made ai)
                      (mines ai) (safes ai) (knowledge ai)) Hc)
    as (Hk & Hs & Hm).
  { destruct Ht as (? & ? & ?). by split_and!. }
  unfold record_observation, truthful. cbn [knowledge safes mines].
  split_and!; [|done..].
  apply Forall_app. split; [done|]. apply Forall_singleton.
  by apply nearby_mines_neighbors.
Qed.

(** While playing on [g] the engine has the size of the board and holds
    nothing but the truth about its mines. *)
Lemma played_truthful ai :
  played g ai →
  height ai = Minesweeper.height g ∧ width ai = Minesweeper.width g ∧
  truthful (mine g) ai.
Proof.
  induction 1 as [|ai cell n fuel ai' _ (Hh & Hw & Ht) Hobs Hadd].
  - split_and!; [done..|]. unfold truthful; simpl.
    split_and!; [constructor | set_solver | set_solver].
  - pose proof (add_knowledge_frame _ _ _ _ _ Hadd) as (-> & -> & _).
    split_and!; [done..|]. unfold add_knowledge in Hadd.
    eapply truthful_deduce; [exact Hadd|].
    by apply truthful_record_observation.
Qed.

End board.

(** ** Observing a cell that holds a mine *)

Section contradiction.
Implicit Types (ai : MinesweeperAI) (c : Cell) (kb : list Sentence) (k : Z).

Lemma empty_sentence_mark_safe c k kb :
  mkSentence ∅ k ∈ kb → mkSentence ∅ k ∈ Sentence.mark_safe c <$> kb.
Proof.
  intros H. apply list_elem_of_fmap. exists (mkSentence ∅ k).
  split; [|done]. by rewrite mark_safe_absent by set_solver.
Qed.

Lemma empty_sentence_mark_mine c k kb :
  mkSentence ∅ k ∈ kb → mkSentence ∅ k ∈ Sentence.mark_mine c <$> kb.
Proof.
  intros H. apply list_elem_of_fmap. exists (mkSentence ∅ k).
  split; [|done]. by rewrite mark_mine_absent by set_solver.
Qed.

Lemma empty_sentence_mark_safe_all l k ai :
  mkSentence ∅ k ∈ knowledge ai →
  mkSentence ∅ k ∈ knowledge (mark_safe_all l ai).
Proof.
  induction l as [|c l IH] using rev_ind; [done|]. intros H.
  rewrite mark_safe_all_snoc. by apply empty_sentence_mark_safe, IH.
Qed.

Lemma empty_sentence_mark_mine_all l k ai :
  mkSentence ∅ k ∈ knowledge ai →
  mkSentence ∅ k ∈ knowledge (mark_mine_all l ai).
Proof.
  induction l as [|c l IH] using rev_ind; [done|]. intros H.
  rewrite mark_mine_all_snoc. by apply empty_sentence_mark_mine, IH.
Qed.

Lemma empty_sentence_conclude_at i k ai found :
  mkSentence ∅ k ∈ knowledge ai →
  mkSentence ∅ k ∈ knowledge (conclude_at i (ai, found)).1.
Proof.
  intros H. unfold conclude_at.
  destruct (knowledge ai !! i) as [s|]; [|done].
  destruct (truthy (Sentence.known_safes s)).
  - pose proof (empty_sentence_mark_safe_all (elements (cells s)) k ai H).
    destruct (knowledge (mark_safe_all _ ai) !! i) as [s1|]; [|done].
    destruct (truthy (Sentence.known_mines s1)); [|done].
    by apply empty_sentence_mark_mine_all.
  - destruct (knowledge ai !! i) as [s1|]; [|done].
    destruct (truthy (Sentence.known_mines s1)); [|done].
    by apply empty_sentence_mark_mine_all.
Qed.

(** A sentence without cells stays in the knowledge base as it is. *)
Lemma empty_sentence_conclude k ai :
  mkSentence ∅ k ∈ knowledge ai →
  mkSentence ∅ k ∈ knowledge (conclude ai).1.
Proof.
  unfold conclude. generalize (seq 0 (length (knowledge ai))) false.
  intros idx. revert ai. induction idx as [|i idx IH]; intros ai found H;
    cbn [foldl]; [done|].
  pose proof (empty_sentence_conclude_at i k ai found H) as H1.
  destruct (conclude_at i (ai, found)) as [ai1 found1]. by apply IH.
Qed.

Lemma count_le_max kb s : s ∈ kb → count s ≤ foldr Z.max 0 (count <$> kb).
Proof.
  induction 1 as [s kb|s s' kb _ IH]; rewrite fmap_cons; cbn [foldr]; lia.
Qed.

(** With [{} = 1] and [{} = -1] in the knowledge base, subset resolution
    always finds a sentence to append. *)
Lemma contradiction_feeds_resolution kb :
  mkSentence ∅ 1 ∈ kb → mkSentence ∅ (-1) ∈ kb → newly_inferred kb ≠ [].
Proof.
  intros Hpos Hneg Hnil.
  assert (∀ n : nat, mkSentence ∅ (1 + Z.of_nat n) ∈ kb) as Hall.
  { induction n as [|n IH]; [done|].
    destruct (decide (mkSentence ∅ (1 + Z.of_nat (S n)) ∈ kb)) as [|Hn];
      [done|]. exfalso.
    assert (mkSentence ∅ (1 + Z.of_nat (S n)) ∈ newly_inferred kb) as Hin.
    { apply elem_of_newly_inferred. split; [done|].
      exists (mkSentence ∅ (1 + Z.of_nat n)), (mkSentence ∅ (-1)).
      split_and!; [done | done | | done |].
      - intros [=]. lia.
      - simpl. rewrite difference_diag_L. f_equal. lia. }
    rewrite Hnil in Hin. by apply not_elem_of_nil in Hin. }
  specialize (Hall (Z.to_nat (foldr Z.max 0 (count <$> kb)))).
  apply count_le_max in Hall. simpl in Hall. lia.
Qed.

(** From then on the loop never returns. *)
Lemma deduce_diverges fuel ai :
  mkSentence ∅ 1 ∈ knowledge ai → mkSentence ∅ (-1) ∈ knowledge ai →
  deduce fuel ai = None.
Proof.
  revert ai. induction fuel as [|fuel IH]; intros ai Hpos Hneg; [done|].
  simpl. rewrite pass_unfold.
  apply empty_sentence_conclude in Hpos, Hneg.
  pose proof (contradiction_feeds_resolution _ Hpos Hneg) as Hne.
  destruct (newly_inferred _) as [|s kb'] eqn:E; [done|].
  apply IH; simpl; apply elem_of_app; by left.
Qed.

End contradiction.

(** C5 fails as stated: on the 1x2 board whose mine is at (0,0), observing
    (0,0) and then (0,1), both cells of the board and each with the number
    of mines around it, leaves (0,0) both a known mine and a known safe
    cell. *)
Lemma observing_a_mine_breaks_disjointness :
  Minesweeper.well_formed mined_board_1x2 ∧
  Minesweeper.nearby_mines mined_board_1x2 (0, 0) = Some 0 ∧
  Minesweeper.nearby_mines mined_board_1x2 (0, 1) = Some 1 ∧
  ∃ ai1 ai2,
    add_knowledge 2 (0, 0) 0 (init 1 2) = Some ai1 ∧
    add_knowledge 2 (0, 1) 1 ai1 = Some ai2 ∧
    mines ai2 = {[ (0, 0) ]} ∧ safes ai2 = {[ (0, 0); (0, 1) ]} ∧
    mines ai2 ∩ safes ai2 ≠ ∅.
Proof.
  split; [split; [done | by repeat constructor]|].
  split; [by vm_compute|]. split; [by vm_compute|].
  eexists _, _. split; [by vm_compute|]. split; [by vm_compute|].
  split; [by vm_compute|]. split; [by vm_compute|].
  by vm_compute.
Qed.

(** C5, as the code has it: after every [add_knowledge] call of a game on
    a board, each call observing a cell of the board that holds no mine
    together with the number of mines around it, no cell is both a known
    mine and a known safe cell. *)
Theorem mines_safes_disjoint (g : Minesweeper.t) (ai : MinesweeperAI) :
  played g ai → mines ai ∩ safes ai = ∅.
Proof.
  intros (_ & _ & Ht)%played_truthful. by eapply truthful_disjoint.
Qed.

(** The engine after its first observation on the 3x3 board. *)
Lemma mines_safes_disjoint_witness :
  played corner_board after_first_observation ∧
  mines after_first_observation ∩ safes after_first_observation = ∅.
Proof.
  assert (played corner_board after_first_observation) as Hp.
  { apply (played_add_knowledge corner_board (init 3 3) (0, 0) 0 2);
      [apply (played_init corner_board) | | ]; by vm_compute. }
  split; [exact Hp|]. exact (mines_safes_disjoint corner_board _ Hp).
Defined.

(** C2 fails as stated: on the 2x2 board whose mine is at (0,0), the
    observation of (0,1) with count 1 returns after one pass, and the
    observation of (0,0) with count 0 that follows, a cell of the board with
    the number of mines around it, never returns: its loop appends new
    sentences at every pass. *)
Lemma observing_a_mine_never_returns :
  Minesweeper.well_formed mined_board_2x2 ∧
  Minesweeper.nearby_mines mined_board_2x2 (0, 1) = Some 1 ∧
  Minesweeper.nearby_mines mined_board_2x2 (0, 0) = Some 0 ∧
  ∃ ai1,
    add_knowledge 1 (0, 1) 1 (init 2 2) = Some ai1 ∧
    ∀ fuel, add_knowledge fuel (0, 0) 0 ai1 = None.
Proof.
  split; [split; [done | by repeat constructor]|].
  split; [by vm_compute|]. split; [by vm_compute|].
  eexists. split; [by vm_compute|].
  intros [|fuel]; [done|]. unfold add_knowledge. cbn [deduce].
  match goal with |- context [pass ?a] =>
    assert ((pass a).2 = true) as Hflag by (by vm_compute);
    assert (existsb (Sentence.eqb (mkSentence ∅ 1)) (knowledge (pass a).1)
            = true) as Hpos by (by vm_compute);
    assert (existsb (Sentence.eqb (mkSentence ∅ (-1))) (knowledge (pass a).1)
            = true) as Hneg by (by vm_compute);
    destruct (pass a) as [ai' found]
  end.
  simpl in *. subst found.
  apply deduce_diverges; by apply existsb_eqb.
Qed.

(** C2, as the code has it: in a game on a board of any size, each call
    observing a cell of the board that holds no mine together with the
    number of mines around it, every [add_knowledge] call returns: after
    finitely many passes its loop reaches a pass that draws no conclusion
    and appends no sentence. *)
Theorem add_knowledge_terminates
    (g : Minesweeper.t) (ai : MinesweeperAI) (cell : Cell) (n : Z) :
  played g ai → consistent g cell n →
  ∃ fuel ai', add_knowledge fuel cell n ai = Some ai' ∧
              pass ai' = (ai', false).
Proof.
  intros (Hh & Hw & Ht)%played_truthful Hobs.
  apply (deduce_terminates (mine g)).
  by apply truthful_record_observation.
Qed.

(** The second observation of a game on the 3x3 board. *)
Lemma add_knowledge_terminates_witness :
  played corner_board after_first_observation ∧
  consistent corner_board (0, 1) 0 ∧
  ∃ fuel ai', add_knowledge fuel (0, 1) 0 after_first_observation = Some ai' ∧
              pass ai' = (ai', false).
Proof.
  assert (played corner_board after_first_observation) as Hp.
  { apply (played_add_knowledge corner_board (init 3 3) (0, 0) 0 2);
      [apply (played_init corner_board) | | ]; by vm_compute. }
  assert (consistent corner_board (0, 1) 0) as Hc by (by vm_compute).
  split; [exact Hp|]. split; [exact Hc|].
  exact (add_knowledge_terminates corner_board _ (0, 1) 0 Hp Hc).
Defined.

(** ** Neighbours and the board's counts *)

Section neighbourhood.
Implicit Types (ai : MinesweeperAI) (g : Minesweeper.t) (c cell : Cell).

Lemma elem_of_window cell c :
  c ∈ window cell ↔
  cell.1 - 1 ≤ c.1 ≤ cell.1 + 1 ∧ cell.2 - 1 ≤ c.2 ≤ cell.2 + 1.
Proof.
  unfold window. destruct c as [i j]; simpl.
  rewrite list_elem_of_bind. setoid_rewrite list_elem_of_bind.
  setoid_rewrite elem_of_range. setoid_rewrite list_elem_of_singleton.
  split.
  - intros (i' & (j' & [= -> ->] & Hj) & Hi). lia.
  - intros [Hi Hj]. exists i. split; [|lia]. exists j. split; [done|lia].
Qed.

Lemma length_window cell : length (window cell) = 9%nat.
Proof.
  unfold window, range.
  replace (cell.1 + 2 - (cell.1 - 1)) with 3 by lia.
  replace (cell.2 + 2 - (cell.2 - 1)) with 3 by lia.
  reflexivity.
Qed.

Lemma elem_of_neighbors ai cell c :
  c ∈ neighbors ai cell ↔
  in_bounds ai c ∧ c ≠ cell ∧
  Z.abs (c.1 - cell.1) ≤ 1 ∧ Z.abs (c.2 - cell.2) ≤ 1.
Proof.
  unfold neighbors.
  rewrite elem_of_list_to_set, list_elem_of_filter, elem_of_window.
  split; [intros ((? & ?) & ?) | intros (? & ? & ? & ?)];
    split_and!; first [done | lia].
Qed.

Lemma size_neighbors ai cell : (size (neighbors ai cell) ≤ 8)%nat.
Proof.
  unfold neighbors.
  rewrite size_list_to_set by apply NoDup_filter, NoDup_window.
  pose proof (length_filter_lt (fun c => in_bounds ai c ∧ c ≠ cell)
                (window cell) cell) as Hlt.
  rewrite length_window in Hlt.
  assert (cell ∈ window cell) by (apply elem_of_window; lia).
  specialize (Hlt ltac:(done) ltac:(tauto)). lia.
Qed.

Lemma py_index_is_Some {A} (l : list A) (i : Z) :
  is_Some (py_index l i) ↔ - Z.of_nat (length l) ≤ i < Z.of_nat (length l).
Proof.
  unfold py_index. repeat case_decide; rewrite ?lookup_lt_is_Some;
    [lia | lia |]. split; [by intros [? [=]] | lia].
Qed.

Lemma py_index_wrap {A} (l : list A) (i : Z) :
  - Z.of_nat (length l) ≤ i < 0 →
  py_index l i = py_index l (i + Z.of_nat (length l)).
Proof.
  intros Hi. unfold py_index. repeat case_decide; try lia.
  f_equal. lia.
Qed.

Lemma py_index_elem_of {A} (l : list A) (i : Z) (x : A) :
  py_index l i = Some x → x ∈ l.
Proof.
  unfold py_index. repeat case_decide; [| |done];
    apply list_elem_of_lookup_2.
Qed.

Lemma board_at_is_Some g i j :
  Minesweeper.well_formed g →
  is_Some (Minesweeper.board_at g i j) ↔
  (- Minesweeper.height g ≤ i < Minesweeper.height g) ∧
  (- Minesweeper.width g ≤ j < Minesweeper.width g).
Proof.
  intros [Hh Hw]. unfold Minesweeper.board_at. rewrite <- Hh.
  destruct (py_index (Minesweeper.board g) i) as [row|] eqn:E; simpl.
  - assert (Z.of_nat (length row) = Minesweeper.width g) as <-.
    { rewrite Forall_forall in Hw. by eapply Hw, py_index_elem_of. }
    rewrite py_index_is_Some.
    pose proof (proj1 (py_index_is_Some (Minesweeper.board g) i)
                  ltac:(by rewrite E)). tauto.
  - split; [by intros [? [=]]|]. intros [Hi _].
    apply py_index_is_Some in Hi. rewrite E in Hi. by destruct Hi.
Qed.

Lemma nearby_fold_total g cell (l : list Cell) (a : Z) :
  Minesweeper.well_formed g →
  is_Some (foldl (Minesweeper.nearby_step g cell) (Some a) l).
Proof.
  intros Hwf. revert a. induction l as [|c l IH]; intros a; [by eexists|].
  cbn [foldl]. unfold Minesweeper.nearby_step at 2. cbn [mbind option_bind].
  destruct (decide (c = cell)); [apply IH|].
  case_decide as Hb; [|apply IH].
  destruct (proj2 (board_at_is_Some g c.1 c.2 Hwf) ltac:(lia)) as [b ->].
  cbn [mbind option_bind]. apply IH.
Qed.

End neighbourhood.

(** X1: the neighbours [add_knowledge] collects for a cell are exactly the
    cells of the board, other than the cell itself, that lie within one row
    and one column of it; there are at most eight of them, also for a cell
    on the border or outside the board. *)
Theorem neighbors_are_adjacent_board_cells (ai : MinesweeperAI) (cell : Cell) :
  (∀ c, c ∈ neighbors ai cell ↔
        in_bounds ai c ∧ c ≠ cell ∧
        Z.abs (c.1 - cell.1) ≤ 1 ∧ Z.abs (c.2 - cell.2) ≤ 1) ∧
  (size (neighbors ai cell) ≤ 8)%nat ∧
  cell ∉ neighbors ai cell.
Proof.
  split_and!; [apply elem_of_neighbors | apply size_neighbors |].
  rewrite elem_of_neighbors. tauto.
Qed.

(** X2: on a board of the shape [__init__] builds, [nearby_mines] raises
    for no cell, inside or outside the board: it returns the number of mines
    among the neighbours an engine of the board's size collects for the
    cell, a number between 0 and 8. *)
Theorem nearby_mines_counts_neighbouring_mines
    (g : Minesweeper.t) (cell : Cell) :
  Minesweeper.well_formed g →
  ∃ n, Minesweeper.nearby_mines g cell = Some n ∧
       n = Z.of_nat (size (filter (mine g)
              (neighbors (init (Minesweeper.height g) (Minesweeper.width g))
                         cell))) ∧
       0 ≤ n ≤ 8.
Proof.
  intros Hwf.
  destruct (nearby_fold_total g cell (window cell) 0 Hwf) as [n Hn].
  exists n. split; [exact Hn|].
  pose proof (nearby_mines_neighbors g
                (init (Minesweeper.height g) (Minesweeper.width g))
                cell n eq_refl eq_refl Hn) as Hs.
  unfold sound in Hs; simpl in Hs. split; [exact Hs|].
  pose proof (size_neighbors
                (init (Minesweeper.height g) (Minesweeper.width g)) cell).
  assert (size (filter (mine g)
            (neighbors (init (Minesweeper.height g) (Minesweeper.width g)) cell))
          ≤ size (neighbors (init (Minesweeper.height g) (Minesweeper.width g))
                            cell))%nat.
  { apply subseteq_size. intros c. rewrite elem_of_filter. tauto. }
  lia.
Qed.

(** The corner (0,0) of the 3x3 board with its mine at (2,2). *)
Lemma nearby_mines_counts_neighbouring_mines_witness :
  ∃ n, Minesweeper.nearby_mines corner_board (0, 0) = Some n ∧
       n = Z.of_nat (size (filter (mine corner_board)
                             (neighbors (init 3 3) (0, 0)))) ∧
       0 ≤ n ≤ 8.
Proof.
  apply (nearby_mines_counts_neighbouring_mines corner_board (0, 0)).
  split; [reflexivity | by repeat constructor].
Defined.

(** X3: on a board of the shape [__init__] builds, [is_mine] answers for
    exactly the cells whose row and column are valid Python indices, from
    minus the size up to the size; a negative row or column reads the board
    from its far side, and any other cell raises [IndexError]. *)
Theorem is_mine_index_range (g : Minesweeper.t) :
  Minesweeper.well_formed g →
  (∀ c, is_Some (Minesweeper.is_mine g c) ↔
        (- Minesweeper.height g ≤ c.1 < Minesweeper.height g) ∧
        (- Minesweeper.width g ≤ c.2 < Minesweeper.width g)) ∧
  (∀ i j, - Minesweeper.height g ≤ i < 0 →
          Minesweeper.is_mine g (i, j)
          = Minesweeper.is_mine g (i + Minesweeper.height g, j)) ∧
  (∀ i j, 0 ≤ i < Minesweeper.height g → - Minesweeper.width g ≤ j < 0 →
          Minesweeper.is_mine g (i, j)
          = Minesweeper.is_mine g (i, j + Minesweeper.width g)).
Proof.
  intros Hwf. split_and!.
  - intros c. by apply board_at_is_Some.
  - intros i j Hi. destruct Hwf as [Hh _].
    unfold Minesweeper.is_mine, Minesweeper.board_at; simpl.
    rewrite <- Hh in *. by rewrite py_index_wrap.
  - intros i j Hi Hj. destruct Hwf as [Hh Hw].
    unfold Minesweeper.is_mine, Minesweeper.board_at; simpl.
    destruct (py_index (Minesweeper.board g) i) as [row|] eqn:E; [|done].
    simpl. assert (Z.of_nat (length row) = Minesweeper.width g) as Hlen.
    { rewrite Forall_forall in Hw. by eapply Hw, py_index_elem_of. }
    rewrite <- Hlen in Hj |- *. by apply py_index_wrap.
Qed.

(** The last cell of the 3x3 board, read as (-1,-1). *)
Lemma is_mine_index_range_witness :
  Minesweeper.is_mine corner_board (-1, -1) = Some true ∧
  Minesweeper.is_mine corner_board (3, 0) = None.
Proof.
  assert (Minesweeper.well_formed corner_board) as Hwf
    by (split; [reflexivity | by repeat constructor]).
  destruct (is_mine_index_range corner_board Hwf) as (Hdom & Hrow & _).
  split.
  - rewrite (Hrow (-1) (-1)) by (simpl; lia). reflexivity.
  - destruct (Minesweeper.is_mine corner_board (3, 0)) as [b|] eqn:E; [|done].
    assert (is_Some (Minesweeper.is_mine corner_board (3, 0))) as Hs
      by (by rewrite E).
    apply Hdom in Hs. simpl in Hs. lia.
Defined.

(** ** Which cells a call can touch *)

Section locality.
Context (L Qm Qs : Cell → Prop).
Hypothesis (HLm : ∀ c, L c → Qm c) (HLs : ∀ c, L c → Qs c).
Implicit Types (ai : MinesweeperAI) (c cell : Cell) (l : list Cell).

Lemma confined_narrowed ai ai' :
  narrowed ai ai' → (∀ c, c ∈ live (knowledge ai) → L c) →
  ∀ c, c ∈ live (knowledge ai') → L c.
Proof. intros Hn%narrowed_live Hq c Hc. apply Hq. set_solver. Qed.

Lemma confined_mark_safe_all l ai :
  (∀ c, c ∈ l → L c) → confined L Qm Qs ai → confined L Qm Qs (mark_safe_all l ai).
Proof.
  intros Hl (Hk & Hm & Hs). split_and!.
  - eapply confined_narrowed; [apply narrowed_mark_safe_all | done].
  - by rewrite mark_safe_all_spec.
  - rewrite mark_safe_all_spec; simpl. intros c.
    rewrite elem_of_union, elem_of_list_to_set. naive_solver.
Qed.

Lemma confined_mark_mine_all l ai :
  (∀ c, c ∈ l → L c) → confined L Qm Qs ai → confined L Qm Qs (mark_mine_all l ai).
Proof.
  intros Hl (Hk & Hm & Hs).
  destruct (mark_mine_all_spec l ai) as (_ & _ & _ & Hsafes & Hmines & _).
  split_and!.
  - eapply confined_narrowed; [apply narrowed_mark_mine_all | done].
  - rewrite Hmines. intros c.
    rewrite elem_of_union, elem_of_list_to_set. naive_solver.
  - by rewrite Hsafes.
Qed.

Lemma confined_lookup ai i s c :
  confined L Qm Qs ai → knowledge ai !! i = Some s → c ∈ elements (cells s) → L c.
Proof.
  intros (Hk & _) Hi Hc%elem_of_elements. apply Hk, elem_of_live.
  exists s. split; [by eapply list_elem_of_lookup_2 | done].
Qed.

Lemma confined_conclude_at i ai found :
  confined L Qm Qs ai → confined L Qm Qs (conclude_at i (ai, found)).1.
Proof.
  intros Hc. unfold conclude_at.
  destruct (knowledge ai !! i) as [s|] eqn:Hi; [|done].
  assert (∃ ai1 found1,
            (if truthy (Sentence.known_safes s)
             then (mark_safe_all (elements (cells s)) ai, true)
             else (ai, found)) = (ai1, found1) ∧ confined L Qm Qs ai1)
    as (ai1 & found1 & -> & Hc1).
  { destruct (truthy (Sentence.known_safes s)); [|by eauto].
    eexists _, _. split; [done|]. apply confined_mark_safe_all; [|done].
    intros c. by apply (confined_lookup ai i s). }
  destruct (knowledge ai1 !! i) as [s1|] eqn:Hi1; [|done].
  destruct (truthy (Sentence.known_mines s1)); [|done]. simpl.
  apply confined_mark_mine_all; [|done].
  intros c. by apply (confined_lookup ai1 i s1).
Qed.

Lemma confined_conclude ai : confined L Qm Qs ai → confined L Qm Qs (conclude ai).1.
Proof.
  unfold conclude. generalize (seq 0 (length (knowledge ai))) false.
  intros idx. revert ai. induction idx as [|i idx IH]; intros ai found Hc;
    cbn [foldl]; [done|].
  pose proof (confined_conclude_at i ai found Hc) as Hc1.
  destruct (conclude_at i (ai, found)) as [ai1 found1]. by apply IH.
Qed.

Lemma confined_pass ai : confined L Qm Qs ai → confined L Qm Qs (pass ai).1.
Proof.
  intros (Hk & Hm & Hs)%confined_conclude.
  assert (∀ c, c ∈ live (knowledge (pass ai).1) → L c) as Hk'.
  { intros c. rewrite knowledge_pass, live_app.
    pose proof (live_newly_inferred (knowledge (conclude ai).1)).
    intros Hc. apply Hk. set_solver. }
  revert Hk'. rewrite pass_unfold.
  by destruct (newly_inferred _).
Qed.

Lemma confined_deduce fuel ai ai' :
  deduce fuel ai = Some ai' → confined L Qm Qs ai → confined L Qm Qs ai'.
Proof.
  revert ai. induction fuel as [|fuel IH]; intros ai; [done|]. simpl.
  intros Hd Hc. apply confined_pass in Hc.
  destruct (pass ai) as [ai1 [|]]; simpl in *; [by eapply IH|].
  by injection Hd as <-.
Qed.

End locality.

Lemma live_deduce fuel ai ai' :
  deduce fuel ai = Some ai' → live (knowledge ai') ⊆ live (knowledge ai).
Proof.
  revert ai. induction fuel as [|fuel IH]; intros ai; [done|]. simpl.
  pose proof (live_pass ai) as Hl.
  destruct (pass ai) as [ai1 [|]]; simpl in *.
  - intros Hd%IH. set_solver.
  - by intros [= <-].
Qed.

Lemma live_record_observation cell n ai :
  live (knowledge (record_observation cell n ai))
  = (live (knowledge ai) ∪ neighbors ai cell) ∖ {[cell]}.
Proof.
  unfold record_observation; simpl. rewrite live_app.
  assert (live (Sentence.mark_safe cell <$> knowledge ai)
          = live (knowledge ai) ∖ {[cell]}) as ->.
  { unfold live. rewrite <- list_fmap_compose.
    rewrite (list_fmap_ext (cells ∘ Sentence.mark_safe cell)
               ((fun X => X ∖ {[cell]}) ∘ cells) (knowledge ai))
      by (intros; apply cells_mark_safe).
    by rewrite list_fmap_compose, live_narrowed. }
  unfold live at 2; simpl. rewrite union_empty_r_L.
  assert (cell ∉ neighbors ai cell) as Hc
    by (rewrite elem_of_neighbors; tauto).
  unfold neighbors in *; simpl. set_solver.
Qed.

(** X4: an [add_knowledge] call that returns draws conclusions only about
    cells it was told about: a new safe cell is the observed cell, one of
    its neighbours or a cell of an earlier sentence; a new mine is one of
    the neighbours or a cell of an earlier sentence; and the sentences it
    leaves mention only such cells, and never the observed cell. *)
Theorem add_knowledge_is_local
    (fuel : nat) (cell : Cell) (n : Z) (ai ai' : MinesweeperAI) :
  add_knowledge fuel cell n ai = Some ai' →
  safes ai' ⊆ safes ai ∪ {[cell]} ∪ live (knowledge ai) ∪ neighbors ai cell ∧
  mines ai' ⊆ mines ai ∪ live (knowledge ai) ∪ neighbors ai cell ∧
  live (knowledge ai')
    ⊆ (live (knowledge ai) ∪ neighbors ai cell) ∖ {[cell]}.
Proof.
  unfold add_knowledge. intros Hd.
  pose proof (live_record_observation cell n ai) as Hl.
  pose proof (confined_deduce
                (fun c => c ∈ live (knowledge ai) ∪ neighbors ai cell)
                (fun c => c ∈ mines ai ∪ live (knowledge ai)
                              ∪ neighbors ai cell)
                (fun c => c ∈ safes ai ∪ {[cell]} ∪ live (knowledge ai)
                              ∪ neighbors ai cell)
                ltac:(set_solver) ltac:(set_solver)
                fuel _ _ Hd) as (_ & Hm & Hs).
  { split_and!; [rewrite Hl | |]; simpl; set_solver. }
  split_and!; [done | done |].
  apply live_deduce in Hd. by rewrite Hl in Hd.
Qed.

(** The first observation on the 3x3 board. *)
Lemma add_knowledge_is_local_witness :
  safes after_first_observation
    ⊆ safes (init 3 3) ∪ {[ (0, 0) ]} ∪ live (knowledge (init 3 3))
        ∪ neighbors (init 3 3) (0, 0) ∧
  mines after_first_observation
    ⊆ mines (init 3 3) ∪ live (knowledge (init 3 3))
        ∪ neighbors (init 3 3) (0, 0) ∧
  live (knowledge after_first_observation)
    ⊆ (live (knowledge (init 3 3)) ∪ neighbors (init 3 3) (0, 0))
        ∖ {[ (0, 0) ]}.
Proof.
  apply (add_knowledge_is_local 2 (0, 0) 0). by vm_compute.
Defined.

(** ** What the engine knows in a game *)

Section game.
Context (g : Minesweeper.t).
Implicit Types (ai : MinesweeperAI) (c cell : Cell).

Lemma confined_record_observation (L Qm Qs : Cell → Prop) cell n ai :
  (∀ c, c ∈ neighbors ai cell → L c) → Qs cell →
  confined L Qm Qs ai → confined L Qm Qs (record_observation cell n ai).
Proof.
  intros Hn Hc (Hk & Hm & Hs). split_and!.
  - intros c. rewrite live_record_observation. set_solver.
  - done.
  - simpl. set_solver.
Qed.

Lemma played_on_board ai :
  played g ai →
  confined (in_bounds ai) (in_bounds ai) (in_bounds ai) ai.
Proof.
  induction 1 as [|ai cell n fuel ai' Hp IH Hobs Hadd].
  - unfold confined; simpl.
    split_and!; intros c Hc; exfalso; revert Hc; apply not_elem_of_empty.
  - pose proof (add_knowledge_frame _ _ _ _ _ Hadd) as (Hh & Hw & _).
    pose proof (played_truthful g ai Hp) as (Hgh & Hgw & _).
    assert (∀ c, in_bounds ai' c ↔ in_bounds ai c) as Hb
      by (intros c; unfold in_bounds; by rewrite Hh, Hw).
    unfold add_knowledge in Hadd.
    apply (confined_deduce (in_bounds ai) (in_bounds ai) (in_bounds ai)
             ltac:(done) ltac:(done)) in Hadd as (Hk & Hm & Hs).
    + split_and!; intros c ?; apply Hb; auto.
    + apply confined_record_observation; [| |done].
      * intros c (? & _)%elem_of_neighbors. done.
      * destruct Hobs as (Hin & _). unfold in_bounds. by rewrite Hgh, Hgw.
Qed.

End game.

(** X5: in a game on a board, every sentence the engine holds is true: its
    count is the number of mines among its cells, so it lies between 0 and
    the number of cells; every known mine is a mine of the board and no
    known safe cell is. *)
Theorem game_knowledge_is_true (g : Minesweeper.t) (ai : MinesweeperAI) :
  played g ai →
  (∀ s, s ∈ knowledge ai →
        count s = Z.of_nat (size (filter (mine g) (cells s))) ∧
        0 ≤ count s ≤ Z.of_nat (size (cells s))) ∧
  (∀ c, c ∈ mines ai → mine g c) ∧
  (∀ c, c ∈ safes ai → ¬ mine g c).
Proof.
  intros (_ & _ & Hk & Hs & Hm)%played_truthful. split_and!; [|done..].
  intros s Hin. rewrite Forall_forall in Hk. specialize (Hk s Hin).
  split; [exact Hk|]. unfold sound in Hk. rewrite Hk.
  assert (size (filter (mine g) (cells s)) ≤ size (cells s))%nat.
  { apply subseteq_size. intros c. rewrite elem_of_filter. tauto. }
  lia.
Qed.

(** The engine after its first observation on the 3x3 board. *)
Lemma game_knowledge_is_true_witness :
  (∀ s, s ∈ knowledge after_first_observation →
        count s = Z.of_nat (size (filter (mine corner_board) (cells s))) ∧
        0 ≤ count s ≤ Z.of_nat (size (cells s))) ∧
  (∀ c, c ∈ mines after_first_observation → mine corner_board c) ∧
  (∀ c, c ∈ safes after_first_observation → ¬ mine corner_board c).
Proof.
  apply (game_knowledge_is_true corner_board).
  apply (played_add_knowledge corner_board (init 3 3) (0, 0) 0 2);
    [apply (played_init corner_board) | | ]; by vm_compute.
Defined.

(** X6: [make_safe_move], whatever the order in which it walks the safe
    set, returns a known safe cell that is not a move made, and returns
    [None] exactly when every known safe cell is a move made. *)
Theorem make_safe_move_spec (ai : MinesweeperAI) (order : list Cell) :
  iteration_order (safes ai) order →
  (∀ c, (make_safe_move_in order ai).1 = Some c →
        c ∈ safes ai ∧ (c ∉ moves_made ai)) ∧
  ((make_safe_move_in order ai).1 = None ↔ safes ai ⊆ moves_made ai).
Proof.
  intros Ho. unfold iteration_order in Ho. split.
  - intros c [Hin Hc]%make_safe_move_in_Some. split; [|done].
    apply elem_of_elements. by rewrite <- Ho.
  - rewrite make_safe_move_in_None. split.
    + intros H c Hc. apply H. rewrite Ho. by apply elem_of_elements.
    + intros H c Hc. apply H. apply elem_of_elements. by rewrite <- Ho.
Qed.

(** The engine after its first observation, walked in the order of
    [elements]. *)
Lemma make_safe_move_spec_witness :
  (∀ c, (make_safe_move after_first_observation).1 = Some c →
        c ∈ safes after_first_observation ∧
        (c ∉ moves_made after_first_observation)) ∧
  ((make_safe_move after_first_observation).1 = None ↔
   safes after_first_observation ⊆ moves_made after_first_observation).
Proof.
  apply (make_safe_move_spec after_first_observation
           (elements (safes after_first_observation))).
  unfold iteration_order. reflexivity.
Defined.

(** X7: in a game on a board of the shape [__init__] builds, the cell
    [make_safe_move] returns is a cell of the board, has not been played,
    and holds no mine: [is_mine] answers [False] for it. *)
Theorem make_safe_move_is_safe
    (g : Minesweeper.t) (ai : MinesweeperAI) (order : list Cell) (c : Cell) :
  Minesweeper.well_formed g → played g ai →
  iteration_order (safes ai) order →
  (make_safe_move_in order ai).1 = Some c →
  (0 ≤ c.1 < Minesweeper.height g ∧ 0 ≤ c.2 < Minesweeper.width g) ∧
  (c ∉ moves_made ai) ∧
  Minesweeper.is_mine g c = Some false.
Proof.
  intros Hwf Hp Ho [Hin Hc]%make_safe_move_in_Some.
  unfold iteration_order in Ho. rewrite Ho, elem_of_elements in Hin.
  pose proof (played_truthful g ai Hp) as (Hh & Hw & _ & Hs & _).
  pose proof (played_on_board g ai Hp) as (_ & _ & Hb).
  specialize (Hb c Hin). unfold in_bounds in Hb. rewrite Hh, Hw in Hb.
  split; [exact Hb|]. split; [done|].
  specialize (Hs c Hin). unfold mine in Hs.
  destruct (proj2 (board_at_is_Some g c.1 c.2 Hwf) ltac:(lia)) as [b Hbd].
  unfold Minesweeper.is_mine in *. rewrite Hbd in *. destruct b; [done|done].
Qed.

(** The move chosen after the first observation on the 3x3 board. *)
Lemma make_safe_move_is_safe_witness :
  ∃ c, (make_safe_move after_first_observation).1 = Some c ∧
       Minesweeper.is_mine corner_board c = Some false.
Proof.
  destruct (make_safe_move after_first_observation).1 as [c|] eqn:E;
    [|by vm_compute in E].
  exists c. split; [done|].
  apply (make_safe_move_is_safe corner_board after_first_observation
           (elements (safes after_first_observation)) c).
  - split; [reflexivity | by repeat constructor].
  - apply (played_add_knowledge corner_board (init 3 3) (0, 0) 0 2);
      [apply (played_init corner_board) | | ]; by vm_compute.
  - unfold iteration_order. reflexivity.
  - exact E.
Defined.

(** ** What a returned call leaves behind *)

Section closure.
Implicit Types (ai : MinesweeperAI) (s : Sentence) (c cell : Cell).

Lemma conclude_at_flag i ai : (conclude_at i (ai, true)).2 = true.
Proof.
  unfold conclude_at. destruct (knowledge ai !! i) as [s|]; [|done].
  destruct (truthy (Sentence.known_safes s)).
  - destruct (knowledge (mark_safe_all _ ai) !! i) as [s1|]; [|done].
    by destruct (truthy (Sentence.known_mines s1)).
  - destruct (knowledge ai !! i) as [s1|]; [|done].
    by destruct (truthy (Sentence.known_mines s1)).
Qed.

Lemma conclude_loop_flag (idx : list nat) ai :
  (foldl (fun st i => conclude_at i st) (ai, true) idx).2 = true.
Proof.
  revert ai. induction idx as [|i idx IH]; intros ai; cbn [foldl]; [done|].
  pose proof (conclude_at_flag i ai) as Hf.
  destruct (conclude_at i (ai, true)) as [ai1 f1]. simpl in Hf. subst f1.
  apply IH.
Qed.

(** A sentence that allows a conclusion raises the flag. *)
Lemma conclude_at_trigger i ai found s :
  knowledge ai !! i = Some s →
  truthy (Sentence.known_safes s) = true
  ∨ truthy (Sentence.known_mines s) = true →
  (conclude_at i (ai, found)).2 = true.
Proof.
  intros Hi Ht. unfold conclude_at. rewrite Hi.
  destruct (truthy (Sentence.known_safes s)) eqn:Hs.
  - destruct (knowledge (mark_safe_all _ ai) !! i) as [s1|]; [|done].
    by destruct (truthy (Sentence.known_mines s1)).
  - rewrite Hi. destruct Ht as [Ht|Ht]; [done|]. by rewrite Ht.
Qed.

Lemma conclude_loop_quiet (idx : list nat) ai ai' :
  foldl (fun st i => conclude_at i st) (ai, false) idx = (ai', false) →
  ∀ i s, i ∈ idx → knowledge ai !! i = Some s →
         truthy (Sentence.known_safes s) = false ∧
         truthy (Sentence.known_mines s) = false.
Proof.
  induction idx as [|i idx IH]; cbn [foldl]; intros Hf j s Hj Hs.
  { by apply not_elem_of_nil in Hj. }
  destruct (conclude_at_spec i ai false) as [_ Hstep].
  destruct (conclude_at i (ai, false)) as [ai1 f1] eqn:E.
  destruct f1.
  { pose proof (conclude_loop_flag idx ai1) as Hflag.
    rewrite Hf in Hflag. done. }
  destruct Hstep as [[= ->] | [[=] _]].
  apply elem_of_cons in Hj as [-> | Hj]; [|by eapply IH].
  destruct (truthy (Sentence.known_safes s)) eqn:H1;
    [|destruct (truthy (Sentence.known_mines s)) eqn:H2; [|done]].
  - pose proof (conclude_at_trigger i ai false s Hs (or_introl H1)) as Ht.
    by rewrite E in Ht.
  - pose proof (conclude_at_trigger i ai false s Hs (or_intror H2)) as Ht.
    by rewrite E in Ht.
Qed.

Lemma conclude_quiet ai s :
  conclude ai = (ai, false) → s ∈ knowledge ai →
  truthy (Sentence.known_safes s) = false ∧
  truthy (Sentence.known_mines s) = false.
Proof.
  intros Hc (i & Hi)%list_elem_of_lookup_1.
  eapply (conclude_loop_quiet _ _ _ Hc i s); [|done].
  apply elem_of_seq. apply lookup_lt_Some in Hi. lia.
Qed.

Lemma pass_quiet_parts ai :
  pass ai = (ai, false) →
  conclude ai = (ai, false) ∧ newly_inferred (knowledge ai) = [].
Proof.
  intros Hp. pose proof Hp as Hp'. rewrite pass_unfold in Hp'.
  destruct (conclude_spec ai) as [_ Hc].
  destruct (newly_inferred (knowledge (conclude ai).1)) eqn:E; [|done].
  rewrite Hp' in Hc. simpl in Hc. destruct Hc as [_ | [[=] _]].
  rewrite Hp' in E. simpl in E. done.
Qed.

Lemma length_knowledge_pass ai :
  (length (knowledge ai) ≤ length (knowledge (pass ai).1))%nat.
Proof.
  destruct (conclude_spec ai) as [Hn%narrowed_length _].
  rewrite knowledge_pass, length_app. lia.
Qed.

Lemma length_knowledge_deduce fuel ai ai' :
  deduce fuel ai = Some ai' →
  (length (knowledge ai) ≤ length (knowledge ai'))%nat.
Proof.
  revert ai. induction fuel as [|fuel IH]; intros ai; [done|]. simpl.
  pose proof (length_knowledge_pass ai) as Hl.
  destruct (pass ai) as [ai1 [|]]; simpl in *.
  - intros Hd%IH. lia.
  - by intros [= <-].
Qed.

End closure.

(** X8: when an [add_knowledge] call returns, the knowledge base is closed
    under the engine's two rules.  No sentence with cells has count 0 or a
    count equal to its number of cells; for any two different sentences, one
    with its cells among the other's, the difference sentence is in the
    knowledge base; and running the deduction loop again returns at once
    with the same engine. *)
Theorem add_knowledge_returns_closed
    (fuel : nat) (cell : Cell) (n : Z) (ai ai' : MinesweeperAI) :
  add_knowledge fuel cell n ai = Some ai' →
  (∀ s, s ∈ knowledge ai' → cells s ≠ ∅ →
        count s ≠ 0 ∧ count s ≠ Z.of_nat (size (cells s))) ∧
  (∀ A B, A ∈ knowledge ai' → B ∈ knowledge ai' → A ≠ B →
          cells B ⊆ cells A →
          mkSentence (cells A ∖ cells B) (count A - count B)
            ∈ knowledge ai') ∧
  (∀ fuel', deduce (S fuel') ai' = Some ai').
Proof.
  unfold add_knowledge. intros Hq%deduce_quiescent.
  destruct (pass_quiet_parts ai' Hq) as [Hc Hnil]. split_and!.
  - intros s Hs Hne. destruct (conclude_quiet ai' s Hc Hs) as [H1 H2].
    unfold Sentence.known_safes, Sentence.known_mines in *. split.
    + intros H0. rewrite decide_True in H1 by done. simpl in H1.
      by apply bool_decide_eq_false in H1.
    + intros H0. rewrite decide_True in H2 by done. simpl in H2.
      by apply bool_decide_eq_false in H2.
  - intros A B HA HB Hne Hsub.
    destruct (decide (mkSentence (cells A ∖ cells B) (count A - count B)
                        ∈ knowledge ai')) as [|Hn]; [done|]. exfalso.
    assert (mkSentence (cells A ∖ cells B) (count A - count B)
              ∈ newly_inferred (knowledge ai')) as Hin.
    { apply elem_of_newly_inferred. split; [done|]. by exists A, B. }
    rewrite Hnil in Hin. by apply not_elem_of_nil in Hin.
  - intros fuel'. simpl. by rewrite Hq.
Qed.

(** The first observation on the 3x3 board. *)
Lemma add_knowledge_returns_closed_witness :
  (∀ s, s ∈ knowledge after_first_observation → cells s ≠ ∅ →
        count s ≠ 0 ∧ count s ≠ Z.of_nat (size (cells s))) ∧
  (∀ A B, A ∈ knowledge after_first_observation →
          B ∈ knowledge after_first_observation → A ≠ B →
          cells B ⊆ cells A →
          mkSentence (cells A ∖ cells B) (count A - count B)
            ∈ knowledge after_first_observation) ∧
  (∀ fuel', deduce (S fuel') after_first_observation
            = Some after_first_observation).
Proof.
  apply (add_knowledge_returns_closed 2 (0, 0) 0 (init 3 3)). by vm_compute.
Defined.

(** X9: an [add_knowledge] call that returns keeps the board size, adds
    exactly the observed cell to the moves made, keeps every known mine and
    every known safe cell, knows the observed cell to be safe, and holds at
    least one sentence more than before. *)
Theorem add_knowledge_only_grows
    (fuel : nat) (cell : Cell) (n : Z) (ai ai' : MinesweeperAI) :
  add_knowledge fuel cell n ai = Some ai' →
  height ai' = height ai ∧ width ai' = width ai ∧
  moves_made ai' = {[cell]} ∪ moves_made ai ∧
  mines ai ⊆ mines ai' ∧ safes ai ⊆ safes ai' ∧ cell ∈ safes ai' ∧
  (S (length (knowledge ai)) ≤ length (knowledge ai'))%nat.
Proof.
  intros Hadd.
  pose proof (add_knowledge_frame _ _ _ _ _ Hadd) as (? & ? & ? & ? & ?).
  split_and!; [done | done | done | done | set_solver | set_solver |].
  unfold add_knowledge in Hadd. apply length_knowledge_deduce in Hadd.
  unfold record_observation in Hadd; simpl in Hadd.
  rewrite length_app, length_fmap in Hadd. simpl in Hadd. lia.
Qed.

(** The first observation on the 3x3 board. *)
Lemma add_knowledge_only_grows_witness :
  height after_first_observation = height (init 3 3) ∧
  width after_first_observation = width (init 3 3) ∧
  moves_made after_first_observation
    = {[ (0, 0) ]} ∪ moves_made (init 3 3) ∧
  mines (init 3 3) ⊆ mines after_first_observation ∧
  safes (init 3 3) ⊆ safes after_first_observation ∧
  (0, 0) ∈ safes after_first_observation ∧
  (S (length (knowledge (init 3 3)))
   ≤ length (knowledge after_first_observation))%nat.
Proof.
  apply (add_knowledge_only_grows 2 (0, 0) 0 (init 3 3)). by vm_compute.
Defined.

(** ** How marks compose *)

Lemma mark_safe_swap (c1 c2 : Cell) (ai : MinesweeperAI) :
  mark_safe c1 (mark_safe c2 ai) = mark_safe c2 (mark_safe c1 ai).
Proof.
  apply (mark_safe_all_order [c2; c1] [c1; c2]). apply Permutation_swap.
Qed.

Lemma mark_safe_mark_mine_swap (c1 c2 : Cell) (ai : MinesweeperAI) :
  c1 ≠ c2 → mark_safe c1 (mark_mine c2 ai) = mark_mine c2 (mark_safe c1 ai).
Proof.
  intros Hne. unfold mark_safe, mark_mine; simpl. f_equal.
  rewrite <- !list_fmap_compose. apply list_fmap_ext. intros _ s _; simpl.
  unfold Sentence.mark_safe, Sentence.mark_mine.
  repeat (case_decide; simpl in * ); try (f_equal; first [set_solver | lia]);
    set_solver.
Qed.

(** X10: the order in which the cells of a set are marked does not matter:
    marking the cells of two lists that are permutations of each other, as
    safe or as mines, leaves the same engine.  So the result of the marking
    loops of [add_knowledge] does not depend on the order in which Python
    iterates over the copied set. *)
Theorem marking_order_is_irrelevant
    (l1 l2 : list Cell) (ai : MinesweeperAI) :
  l1 ≡ₚ l2 →
  mark_safe_all l1 ai = mark_safe_all l2 ai ∧
  mark_mine_all l1 ai = mark_mine_all l2 ai.
Proof.
  intros Hp. split; [by apply mark_safe_all_order | by apply mark_mine_all_order].
Qed.

(** Two cells of the scenario engine, marked in both orders. *)
Lemma marking_order_is_irrelevant_witness :
  mark_safe_all [(1, 1); (2, 1)] scenario_ai
    = mark_safe_all [(2, 1); (1, 1)] scenario_ai ∧
  mark_mine_all [(1, 1); (2, 1)] scenario_ai
    = mark_mine_all [(2, 1); (1, 1)] scenario_ai.
Proof.
  apply (marking_order_is_irrelevant [(1, 1); (2, 1)] [(2, 1); (1, 1)]).
  apply Permutation_swap.
Defined.

(** X11: marks of different cells commute: [mark_safe] with [mark_safe],
    [mark_mine] with [mark_mine], and [mark_safe] of one cell with
    [mark_mine] of another.  For one and the same cell the order shows: the
    first mark removes the cell from the sentences, so only a [mark_mine]
    that comes first lowers their counts. *)
Theorem marks_commute (c1 c2 : Cell) (ai : MinesweeperAI) :
  mark_safe c1 (mark_safe c2 ai) = mark_safe c2 (mark_safe c1 ai) ∧
  mark_mine c1 (mark_mine c2 ai) = mark_mine c2 (mark_mine c1 ai) ∧
  (c1 ≠ c2 →
   mark_safe c1 (mark_mine c2 ai) = mark_mine c2 (mark_safe c1 ai)) ∧
  knowledge (mark_mine c1 (mark_safe c1 ai)) = knowledge (mark_safe c1 ai) ∧
  knowledge (mark_safe c1 (mark_mine c1 ai)) = knowledge (mark_mine c1 ai).
Proof.
  split_and!.
  - apply mark_safe_swap.
  - apply mark_mine_swap.
  - apply mark_safe_mark_mine_swap.
  - unfold mark_mine, mark_safe; simpl. rewrite <- list_fmap_compose.
    apply list_fmap_ext. intros _ s _; simpl.
    apply mark_mine_absent. rewrite cells_mark_safe. set_solver.
  - unfold mark_mine, mark_safe; simpl. rewrite <- list_fmap_compose.
    apply list_fmap_ext. intros _ s _; simpl.
    apply mark_safe_absent. rewrite cells_mark_mine. set_solver.
Qed.

(** A safe cell and a mine of the scenario engine, marked in both orders. *)
Lemma marks_commute_witness :
  mark_safe (2, 1) (mark_mine (1, 1) scenario_ai)
  = mark_mine (1, 1) (mark_safe (2, 1) scenario_ai).
Proof.
  apply (proj1 (proj2 (proj2 (marks_commute (2, 1) (1, 1) scenario_ai)))).
  intros [=].
Defined.

(** ** The rules are sound *)

(** X12: for any set of mines, a sentence that is true of it stays true
    when a cell that is no mine is marked safe in it and when a cell that is
    a mine is marked as a mine in it; and what it concludes is true: the cells
    [known_safes] returns hold no mine and the cells [known_mines] returns
    are all mines. *)
Theorem sentence_operations_are_sound
    (P : Cell → Prop) `{!∀ c, Decision (P c)} (s : Sentence) :
  sound P s →
  (∀ c, ¬ P c → sound P (Sentence.mark_safe c s)) ∧
  (∀ c, P c → sound P (Sentence.mark_mine c s)) ∧
  (∀ X c, Sentence.known_safes s = Some X → c ∈ X → ¬ P c) ∧
  (∀ X c, Sentence.known_mines s = Some X → c ∈ X → P c).
Proof.
  intros Hs. split_and!.
  - intros c Hc. by apply sound_mark_safe.
  - intros c Hc. by apply sound_mark_mine.
  - intros X c HX Hc. unfold Sentence.known_safes in HX.
    case_decide; [|done]. injection HX as <-. by eapply sound_zero.
  - intros X c HX Hc. unfold Sentence.known_mines in HX.
    case_decide; [|done]. injection HX as <-. by eapply sound_full.
Qed.

(** The sentence [{(1,2),(2,1),(2,2)} = 1] on the 3x3 board with its mine
    at (2,2). *)
Lemma sentence_operations_are_sound_witness :
  sound (mine corner_board)
        (Sentence.mark_safe (1, 2)
           (mkSentence {[ (1, 2); (2, 1); (2, 2) ]} 1)) ∧
  sound (mine corner_board)
        (Sentence.mark_mine (2, 2)
           (mkSentence {[ (1, 2); (2, 1); (2, 2) ]} 1)).
Proof.
  destruct (sentence_operations_are_sound (mine corner_board)
              (mkSentence {[ (1, 2); (2, 1); (2, 2) ]} 1))
    as (Hsafe & Hmine & _).
  - by vm_compute.
  - split; [apply Hsafe | apply Hmine]; by vm_compute.
Defined.

(** X13: subset resolution is sound: for any set of mines, the difference
    of two sentences that are true of it, one with its cells among the
    other's, is true of it, so every sentence a pass appends to a knowledge
    base of true sentences is true. *)
Theorem subset_resolution_is_sound
    (P : Cell → Prop) `{!∀ c, Decision (P c)} :
  (∀ A B, sound P A → sound P B → cells B ⊆ cells A →
          sound P (mkSentence (cells A ∖ cells B) (count A - count B))) ∧
  (∀ kb, Forall (sound P) kb → Forall (sound P) (newly_inferred kb)).
Proof.
  split; [intros A B; apply sound_difference | apply sound_newly_inferred].
Qed.

(** The two sentences of the scenario, on a 3x3 board with its only mine at
    (1,1). *)
Lemma subset_resolution_is_sound_witness :
  sound (mine (Minesweeper.mk 3 3 [[false; false; false];
                                   [false; true; false];
                                   [false; false; false]]))
        (mkSentence (cells scenario_A ∖ cells scenario_B)
                    (count scenario_A - count scenario_B)).
Proof.
  apply (proj1 (subset_resolution_is_sound
                  (mine (Minesweeper.mk 3 3 [[false; false; false];
                                             [false; true; false];
                                             [false; false; false]])))).
  - by vm_compute.
  - by vm_compute.
  - unfold scenario_A, scenario_B; simpl. set_solver.
Defined.

(** ** Contradictory knowledge *)

Section contradictory.
Implicit Types (ai : MinesweeperAI) (kb : list Sentence) (k a b : Z).

Lemma opposite_counts_feed_resolution k kb :
  0 < k → mkSentence ∅ k ∈ kb → mkSentence ∅ (- k) ∈ kb →
  newly_inferred kb ≠ [].
Proof.
  intros Hk Hpos Hneg Hnil.
  assert (∀ m : nat, mkSentence ∅ (k * (1 + Z.of_nat m)) ∈ kb) as Hall.
  { induction m as [|m IH]; [by rewrite Z.add_0_r, Z.mul_1_r|].
    destruct (decide (mkSentence ∅ (k * (1 + Z.of_nat (S m))) ∈ kb))
      as [|Hn]; [done|]. exfalso.
    assert (mkSentence ∅ (k * (1 + Z.of_nat (S m))) ∈ newly_inferred kb)
      as Hin.
    { apply elem_of_newly_inferred. split; [done|].
      exists (mkSentence ∅ (k * (1 + Z.of_nat m))), (mkSentence ∅ (- k)).
      split_and!; [done | done | | done |].
      - intros [=]. nia.
      - simpl. rewrite difference_diag_L. f_equal. lia. }
    rewrite Hnil in Hin. by apply not_elem_of_nil in Hin. }
  specialize (Hall (Z.to_nat (foldr Z.max 0 (count <$> kb)))).
  apply count_le_max in Hall. simpl in Hall. nia.
Qed.

Lemma different_counts_feed_resolution a b kb :
  a ≠ b → mkSentence ∅ a ∈ kb → mkSentence ∅ b ∈ kb →
  newly_inferred kb ≠ [].
Proof.
  intros Hne Ha Hb Hnil.
  assert (∀ x y, x ≠ y → mkSentence ∅ x ∈ kb → mkSentence ∅ y ∈ kb →
                 mkSentence ∅ (x - y) ∈ kb) as Hdiff.
  { intros x y Hxy Hx Hy.
    destruct (decide (mkSentence ∅ (x - y) ∈ kb)) as [|Hn]; [done|].
    exfalso.
    assert (mkSentence ∅ (x - y) ∈ newly_inferred kb) as Hin.
    { apply elem_of_newly_inferred. split; [done|].
      exists (mkSentence ∅ x), (mkSentence ∅ y).
      split_and!; [done | done | | done |].
      - intros [=]. done.
      - simpl. by rewrite difference_diag_L. }
    rewrite Hnil in Hin. by apply not_elem_of_nil in Hin. }
  pose proof (Hdiff a b Hne Ha Hb) as Hab.
  pose proof (Hdiff b a (not_eq_sym Hne) Hb Ha) as Hba.
  destruct (decide (0 < a - b)).
  - apply (opposite_counts_feed_resolution (a - b) kb); try done.
    by replace (- (a - b)) with (b - a) by lia.
  - apply (opposite_counts_feed_resolution (b - a) kb); try done; [lia|].
    by replace (- (b - a)) with (a - b) by lia.
Qed.

Lemma deduce_never_returns fuel a b ai :
  a ≠ b → mkSentence ∅ a ∈ knowledge ai → mkSentence ∅ b ∈ knowledge ai →
  deduce fuel ai = None.
Proof.
  intros Hne. revert ai. induction fuel as [|fuel IH]; intros ai Ha Hb;
    [done|].
  simpl. rewrite pass_unfold.
  apply empty_sentence_conclude in Ha, Hb.
  pose proof (different_counts_feed_resolution a b _ Hne Ha Hb) as Hnn.
  destruct (newly_inferred _) as [|s kb'] eqn:E; [done|].
  apply IH; simpl; apply elem_of_app; by left.
Qed.

End contradictory.

(** X14: once the knowledge base holds two sentences without cells and
    with different counts, the deduction loop of [add_knowledge] never
    stops: every pass appends a sentence, so the flag is up after every pass
    and the loop is still running after any number of passes. *)
Theorem contradictory_knowledge_never_settles
    (ai : MinesweeperAI) (a b : Z) :
  a ≠ b → mkSentence ∅ a ∈ knowledge ai → mkSentence ∅ b ∈ knowledge ai →
  (pass ai).2 = true ∧ ∀ fuel, deduce fuel ai = None.
Proof.
  intros Hne Ha Hb. split.
  - rewrite pass_unfold.
    pose proof (different_counts_feed_resolution a b _ Hne
                  (empty_sentence_conclude a ai Ha)
                  (empty_sentence_conclude b ai Hb)) as Hnn.
    by destruct (newly_inferred _).
  - intros fuel. by apply (deduce_never_returns fuel a b).
Qed.

(** An engine that was told 0 about the only cell of a 1x1 board is told 1
    about it. *)
Lemma contradictory_knowledge_never_settles_witness :
  add_knowledge 1 (0, 0) 0 (init 1 1)
    = Some (mkAI 1 1 {[ (0, 0) ]} ∅ {[ (0, 0) ]} [mkSentence ∅ 0]) ∧
  add_knowledge 7 (0, 0) 1
    (mkAI 1 1 {[ (0, 0) ]} ∅ {[ (0, 0) ]} [mkSentence ∅ 0]) = None.
Proof.
  split; [by vm_compute|]. unfold add_knowledge.
  apply (contradictory_knowledge_never_settles _ 0 1); [done|..].
  - vm_compute. left.
  - vm_compute. right. left.
Defined.

(** ** Marking a set of cells, and the first observation *)

Section first.
Implicit Types (ai : MinesweeperAI) (s : Sentence) (c cell : Cell)
               (l : list Cell) (N : gset Cell).

Lemma mark_mine_all_exact l ai :
  NoDup l →
  mark_mine_all l ai =
  mkAI (height ai) (width ai) (moves_made ai)
       (list_to_set l ∪ mines ai) (safes ai)
       ((fun s => mkSentence (cells s ∖ list_to_set l)
                    (count s - Z.of_nat (size (cells s ∩ list_to_set l))))
          <$> knowledge ai).
Proof.
  induction l as [|c l IH] using rev_ind; intros Hnd.
  - destruct ai as [h w mv mn sf kb]; simpl. f_equal; [set_solver|].
    rewrite <- (list_fmap_id kb) at 1. apply list_fmap_ext.
    intros _ [X k] _; simpl.
    rewrite intersection_empty_r_L, size_empty. f_equal; [set_solver | lia].
  - apply NoDup_app in Hnd as (Hl & Hc & _).
    assert (c ∉ l) as Hcl by (intros ?; eapply Hc; [done | left]).
    rewrite mark_mine_all_snoc, IH by done. unfold mark_mine; simpl.
    rewrite list_to_set_app_L. f_equal; [set_solver|].
    rewrite <- list_fmap_compose. apply list_fmap_ext. intros _ s _; simpl.
    assert (c ∉ (list_to_set l : gset Cell))
      by (by rewrite elem_of_list_to_set).
    unfold Sentence.mark_mine; simpl. case_decide as Hin.
    + f_equal; [set_solver|].
      assert (cells s ∩ (list_to_set l ∪ ({[c]} ∪ ∅))
              = (cells s ∩ list_to_set l) ∪ {[c]}) as -> by set_solver.
      rewrite (size_union (cells s ∩ list_to_set l) {[c]}) by set_solver.
      rewrite size_singleton. lia.
    + f_equal; [set_solver|].
      assert (cells s ∩ (list_to_set l ∪ ({[c]} ∪ ∅))
              = cells s ∩ list_to_set l) as -> by set_solver.
      done.
Qed.

Lemma lookup_single {A} (x : A) : [x] !! 0%nat = Some x.
Proof. done. Qed.

Lemma truthy_empty_sentence k :
  truthy (Sentence.known_safes (mkSentence ∅ k)) = false ∧
  truthy (Sentence.known_mines (mkSentence ∅ k)) = false.
Proof.
  unfold Sentence.known_safes, Sentence.known_mines; simpl.
  split; case_decide; simpl; try done;
    apply bool_decide_eq_false; by intros [].
Qed.

Lemma newly_inferred_single s : newly_inferred [s] = [].
Proof.
  unfold newly_inferred; simpl. unfold infer_pair.
  by rewrite (proj2 (eqb_eq s s) eq_refl).
Qed.

(** A knowledge base of one sentence without cells is at rest. *)
Lemma pass_single_empty h w mv mn sf k :
  pass (mkAI h w mv mn sf [mkSentence ∅ k])
  = (mkAI h w mv mn sf [mkSentence ∅ k], false).
Proof.
  rewrite pass_unfold.
  assert (conclude (mkAI h w mv mn sf [mkSentence ∅ k])
          = (mkAI h w mv mn sf [mkSentence ∅ k], false)) as ->.
  { unfold conclude; cbn [knowledge length seq foldl].
    unfold conclude_at; cbn [knowledge].
    destruct (truthy_empty_sentence k) as [Hs Hm].
    rewrite lookup_single, Hs. cbn [knowledge].
    by rewrite lookup_single, Hm. }
  simpl. by rewrite newly_inferred_single.
Qed.

Lemma record_first_observation h w cell n :
  record_observation cell n (init h w)
  = mkAI h w {[cell]} ∅ {[cell]} [mkSentence (neighbors (init h w) cell) n].
Proof.
  unfold record_observation, init, mark_safe; simpl.
  rewrite !union_empty_r_L. reflexivity.
Qed.

Lemma first_observation_all_safe h w cell :
  neighbors (init h w) cell ≠ ∅ →
  pass (record_observation cell 0 (init h w))
  = (mkAI h w {[cell]} ∅ ({[cell]} ∪ neighbors (init h w) cell)
          [mkSentence ∅ 0], true).
Proof.
  intros Hne. rewrite record_first_observation, pass_unfold.
  set (N := neighbors (init h w) cell) in *.
  assert (conclude (mkAI h w {[cell]} ∅ {[cell]} [mkSentence N 0])
          = (mkAI h w {[cell]} ∅ ({[cell]} ∪ N) [mkSentence ∅ 0], true))
    as ->.
  { unfold conclude; cbn [knowledge length seq foldl].
    unfold conclude_at; cbn [knowledge cells]. rewrite lookup_single.
    assert (truthy (Sentence.known_safes (mkSentence N 0)) = true) as ->.
    { unfold Sentence.known_safes; simpl. by apply bool_decide_eq_true. }
    rewrite mark_safe_all_spec; cbn [knowledge cells count fmap list_fmap
      height width moves_made mines safes].
    rewrite list_to_set_elements_L, difference_diag_L.
    rewrite lookup_single.
    destruct (truthy_empty_sentence 0) as [_ ->].
    do 2 f_equal. set_solver. }
  cbn [fst knowledge]. by rewrite newly_inferred_single.
Qed.

Lemma first_observation_all_mines h w cell :
  neighbors (init h w) cell ≠ ∅ →
  pass (record_observation cell
          (Z.of_nat (size (neighbors (init h w) cell))) (init h w))
  = (mkAI h w {[cell]} (neighbors (init h w) cell) {[cell]}
          [mkSentence ∅ 0], true).
Proof.
  intros Hne. rewrite record_first_observation, pass_unfold.
  set (N := neighbors (init h w) cell) in *.
  assert (size N ≠ 0%nat) as Hsz.
  { intros Hz. apply size_empty_iff in Hz. apply Hne.
    by apply leibniz_equiv. }
  assert (conclude (mkAI h w {[cell]} ∅ {[cell]}
                         [mkSentence N (Z.of_nat (size N))])
          = (mkAI h w {[cell]} N {[cell]} [mkSentence ∅ 0], true))
    as ->.
  { unfold conclude; cbn [knowledge length seq foldl].
    unfold conclude_at; cbn [knowledge cells]. rewrite lookup_single.
    assert (truthy (Sentence.known_safes (mkSentence N (Z.of_nat (size N))))
            = false) as ->.
    { unfold Sentence.known_safes; simpl. rewrite decide_False by lia. done. }
    cbn [knowledge]. rewrite lookup_single.
    assert (truthy (Sentence.known_mines (mkSentence N (Z.of_nat (size N))))
            = true) as ->.
    { unfold Sentence.known_mines; simpl. rewrite decide_True by done.
      by apply bool_decide_eq_true. }
    rewrite mark_mine_all_exact by apply NoDup_elements.
    cbn [knowledge cells count fmap list_fmap
         height width moves_made mines safes].
    rewrite list_to_set_elements_L, difference_diag_L.
    replace (N ∩ N) with N by set_solver.
    do 2 f_equal; [set_solver|]. do 2 f_equal. lia. }
  cbn [fst knowledge]. by rewrite newly_inferred_single.
Qed.

Lemma first_observation_undecided h w cell n :
  neighbors (init h w) cell = ∅
  ∨ (n ≠ 0 ∧ n ≠ Z.of_nat (size (neighbors (init h w) cell))) →
  pass (record_observation cell n (init h w))
  = (mkAI h w {[cell]} ∅ {[cell]}
          [mkSentence (neighbors (init h w) cell) n], false).
Proof.
  intros Hcase. rewrite record_first_observation, pass_unfold.
  set (N := neighbors (init h w) cell) in *.
  assert (conclude (mkAI h w {[cell]} ∅ {[cell]} [mkSentence N n])
          = (mkAI h w {[cell]} ∅ {[cell]} [mkSentence N n], false)) as ->.
  { unfold conclude; cbn [knowledge length seq foldl].
    unfold conclude_at; cbn [knowledge cells]. rewrite lookup_single.
    assert (truthy (Sentence.known_safes (mkSentence N n)) = false) as ->.
    { unfold Sentence.known_safes; simpl. case_decide; [|done]. simpl.
      apply bool_decide_eq_false. intros Hne. naive_solver. }
    cbn [knowledge]. rewrite lookup_single.
    assert (truthy (Sentence.known_mines (mkSentence N n)) = false) as ->.
    { unfold Sentence.known_mines; simpl. case_decide; [|done]. simpl.
      apply bool_decide_eq_false. intros Hne. naive_solver. }
    done. }
  cbn [fst knowledge]. by rewrite newly_inferred_single.
Qed.

End first.

(** X15: marking the cells of a duplicate-free list, one after the other,
    has a closed form.  Marked as safe, the cells join the known safe cells
    and leave every sentence, the counts unchanged; marked as mines, they
    join the known mines and leave every sentence, each count lowered by the
    number of marked cells the sentence held.  Nothing else changes. *)
Theorem marking_a_set_of_cells (l : list Cell) (ai : MinesweeperAI) :
  NoDup l →
  mark_safe_all l ai =
    mkAI (height ai) (width ai) (moves_made ai) (mines ai)
         (list_to_set l ∪ safes ai)
         ((fun s => mkSentence (cells s ∖ list_to_set l) (count s))
            <$> knowledge ai) ∧
  mark_mine_all l ai =
    mkAI (height ai) (width ai) (moves_made ai)
         (list_to_set l ∪ mines ai) (safes ai)
         ((fun s => mkSentence (cells s ∖ list_to_set l)
                      (count s - Z.of_nat (size (cells s ∩ list_to_set l))))
            <$> knowledge ai).
Proof.
  intros Hl. split; [apply mark_safe_all_spec | by apply mark_mine_all_exact].
Qed.

(** Two cells of the scenario engine marked as mines. *)
Lemma marking_a_set_of_cells_witness :
  knowledge (mark_mine_all [(1, 1); (2, 1)] scenario_ai)
  = [mkSentence {[ (1, 2) ]} (-1); mkSentence {[ (1, 2) ]} 0].
Proof.
  rewrite (proj2 (marking_a_set_of_cells [(1, 1); (2, 1)] scenario_ai
                    ltac:(by repeat constructor; set_solver))).
  by vm_compute.
Defined.

(** X16: the first observation on a fresh engine, for a board of any size
    and any cell and count.  If the cell has neighbours and the count is 0,
    the call returns after two passes with the cell and all its neighbours
    known safe; if the count is the number of neighbours, it returns after
    two passes with all neighbours known mines; in every other case it
    returns after one pass having learnt only that the cell is safe, and
    keeps the sentence about the neighbours. *)
Theorem first_observation_on_any_board (h w : Z) (cell : Cell) (n : Z) :
  (neighbors (init h w) cell ≠ ∅ → n = 0 →
   ∀ fuel, (2 ≤ fuel)%nat →
     add_knowledge fuel cell n (init h w)
     = Some (mkAI h w {[cell]} ∅ ({[cell]} ∪ neighbors (init h w) cell)
                  [mkSentence ∅ 0])) ∧
  (neighbors (init h w) cell ≠ ∅ →
   n = Z.of_nat (size (neighbors (init h w) cell)) →
   ∀ fuel, (2 ≤ fuel)%nat →
     add_knowledge fuel cell n (init h w)
     = Some (mkAI h w {[cell]} (neighbors (init h w) cell) {[cell]}
                  [mkSentence ∅ 0])) ∧
  (neighbors (init h w) cell = ∅
   ∨ (n ≠ 0 ∧ n ≠ Z.of_nat (size (neighbors (init h w) cell))) →
   ∀ fuel, (1 ≤ fuel)%nat →
     add_knowledge fuel cell n (init h w)
     = Some (mkAI h w {[cell]} ∅ {[cell]}
                  [mkSentence (neighbors (init h w) cell) n])).
Proof.
  unfold add_knowledge. split_and!.
  - intros Hne -> fuel Hf. apply (deduce_fuel 2); [|done]. cbn [deduce].
    rewrite (first_observation_all_safe h w cell Hne).
    by rewrite pass_single_empty.
  - intros Hne -> fuel Hf. apply (deduce_fuel 2); [|done]. cbn [deduce].
    rewrite (first_observation_all_mines h w cell Hne).
    by rewrite pass_single_empty.
  - intros Hcase fuel Hf. apply (deduce_fuel 1); [|done]. cbn [deduce].
    by rewrite (first_observation_undecided h w cell n Hcase).
Qed.

(** The centre of a 3x3 board reported with 8 mines around it. *)
Lemma first_observation_on_any_board_witness :
  add_knowledge 2 (1, 1) 8 (init 3 3)
  = Some (mkAI 3 3 {[ (1, 1) ]} (neighbors (init 3 3) (1, 1)) {[ (1, 1) ]}
               [mkSentence ∅ 0]).
Proof.
  apply (proj1 (proj2 (first_observation_on_any_board 3 3 (1, 1) 8))).
  - by vm_compute.
  - by vm_compute.
  - lia.
Defined.

(** ** Building a board *)

Section building.
Implicit Types (h w k i j : Z) (board : list (list bool)) (ms : gset Cell).

Lemma fill_row (n : nat) (row : list bool) (l : list Z) :
  length l = n →
  foldl (fun row _ => row ++ [false]) row l = row ++ replicate n false.
Proof.
  revert row l. induction n as [|n IH]; intros row [|x l] Hl; try done.
  - simpl. by rewrite app_nil_r.
  - simpl in *. rewrite IH by lia. by rewrite <- app_assoc.
Qed.

Lemma fill_board (n : nat) (r : list bool) board (l : list Z) :
  length l = n →
  foldl (fun board _ => board ++ [r]) board l = board ++ replicate n r.
Proof.
  revert board l. induction n as [|n IH]; intros board [|x l] Hl; try done.
  - simpl. by rewrite app_nil_r.
  - simpl in *. rewrite IH by lia. by rewrite <- app_assoc.
Qed.

Lemma empty_board_replicate h w :
  Game.empty_board h w
  = replicate (Z.to_nat h) (replicate (Z.to_nat w) false).
Proof.
  unfold Game.empty_board.
  rewrite (fill_row (Z.to_nat w) [] (range 0 w))
    by (unfold range; rewrite length_seqZ; lia).
  rewrite (fill_board (Z.to_nat h) _ [] (range 0 h))
    by (unfold range; rewrite length_seqZ; lia).
  done.
Qed.

Lemma board_at_nat h w board i j :
  0 ≤ i → 0 ≤ j →
  Minesweeper.board_at (Minesweeper.mk h w board) i j
  = (row ← board !! Z.to_nat i; row !! Z.to_nat j).
Proof.
  intros Hi Hj. unfold Minesweeper.board_at, py_index; simpl.
  rewrite decide_True by done. destruct (board !! Z.to_nat i); [|done].
  simpl. by rewrite decide_True by done.
Qed.

Lemma board_matches_empty h w : board_matches h w (Game.empty_board h w) ∅.
Proof.
  rewrite empty_board_replicate. split_and!.
  - by rewrite length_replicate.
  - apply Forall_replicate. by rewrite length_replicate.
  - intros i j Hi Hj. exists false. rewrite board_at_nat by lia.
    rewrite lookup_replicate_2 by lia. simpl.
    rewrite lookup_replicate_2 by lia. split; [done|]. set_solver.
  - set_solver.
Qed.

Lemma board_matches_set_mine h w board ms i j :
  0 ≤ i < h → 0 ≤ j < w →
  board_matches h w board ms →
  board_matches h w (Game.set_mine board i j) ({[(i, j)]} ∪ ms).
Proof.
  intros Hi Hj (Hlen & Hrows & Hat & Hin). unfold Game.set_mine.
  destruct (board !! Z.to_nat i) as [row|] eqn:Hrow.
  2:{ apply lookup_ge_None in Hrow. lia. }
  assert (length row = Z.to_nat w) as Hrl.
  { rewrite Forall_forall in Hrows. apply Hrows.
    by eapply list_elem_of_lookup_2. }
  split_and!.
  - by rewrite length_insert.
  - apply Forall_insert; [done|]. by rewrite length_insert.
  - intros i' j' Hi' Hj'. rewrite board_at_nat by lia.
    destruct (decide (i' = i)) as [->|Hne].
    + rewrite list_lookup_insert_eq by lia. simpl.
      destruct (decide (j' = j)) as [->|Hnj].
      * exists true. rewrite list_lookup_insert_eq by lia.
        split; [done|]. set_solver.
      * rewrite list_lookup_insert_ne by lia.
        destruct (Hat i j' Hi' Hj') as (b & Hb & Hiff).
        rewrite board_at_nat, Hrow in Hb by lia. simpl in Hb.
        exists b. split; [done|]. rewrite Hiff. set_solver.
    + rewrite list_lookup_insert_ne by lia.
      destruct (Hat i' j' Hi' Hj') as (b & Hb & Hiff).
      rewrite board_at_nat in Hb by lia.
      exists b. split; [done|]. rewrite Hiff. set_solver.
  - intros c [->%elem_of_singleton | Hc]%elem_of_union; [done | auto].
Qed.

Lemma randrange_Some rnd n i :
  Game.randrange rnd n = Some i → 0 ≤ i < n.
Proof.
  unfold Game.randrange. case_decide; [|done]. intros [= <-].
  by apply Z.mod_pos_bound.
Qed.

Lemma place_returned h w k draws board ms board' ms' :
  board_matches h w board ms →
  Game.place h w k draws board ms = Game.Returned (board', ms') →
  board_matches h w board' ms' ∧ Z.of_nat (size ms') = k.
Proof.
  revert board ms. induction draws as [|[ri rj] draws IH]; intros board ms Hm;
    simpl.
  - case_decide; [|done]. by intros [= <- <-].
  - case_decide; [by intros [= <- <-]|].
    destruct (Game.randrange ri h) as [i|] eqn:Ei; [|done].
    destruct (Game.randrange rj w) as [j|] eqn:Ej; [|done].
    apply randrange_Some in Ei, Ej.
    destruct (Minesweeper.board_at _ i j) as [[|]|]; [| |done].
    + by apply IH.
    + apply IH. by apply board_matches_set_mine.
Qed.

Lemma init_returns_count h w k draws (gm : Game.t) :
  Game.init h w k draws = Game.Returned gm →
  Z.of_nat (size (Game.mines gm)) = k ∧ 0 ≤ k.
Proof.
  unfold Game.init.
  destruct (Game.place h w k draws (Game.empty_board h w) ∅)
    as [[board ms]| |] eqn:E; [|done..].
  intros [= <-]. simpl.
  destruct (place_returned _ _ _ _ _ _ _ _ (board_matches_empty h w) E)
    as (_ & Hk). split; [done | lia].
Qed.

(** With a board of at least one row and one column the loop reads and
    writes inside the board, so nothing is raised. *)
Lemma place_not_raised h w k draws board ms :
  0 < h → 0 < w → board_matches h w board ms →
  Game.place h w k draws board ms ≠ Game.Raised.
Proof.
  intros Hh Hw. revert board ms.
  induction draws as [|[ri rj] draws IH]; intros board ms Hm; simpl.
  - by case_decide.
  - case_decide; [done|]. unfold Game.randrange.
    rewrite !decide_True by done.
    pose proof (Z.mod_pos_bound (Z.of_nat ri) h Hh) as Hi.
    pose proof (Z.mod_pos_bound (Z.of_nat rj) w Hw) as Hj.
    destruct Hm as (Hlen & Hrows & Hat & Hin).
    destruct (Hat _ _ Hi Hj) as (b & -> & _).
    destruct b; apply IH; [done|].
    by apply board_matches_set_mine.
Qed.

End building.

(** X17: when [Minesweeper.__init__] returns, the object has the height
    and width asked for and, if these are not negative, a board of that
    many rows and columns; the mine set has exactly the number of mines asked
    for, all inside the board, and a cell of the board is in the mine set
    exactly when [is_mine] answers [True] for it; no mine is found yet, so
    [won] holds exactly when no mine was asked for. *)
Theorem init_builds_the_board
    (h w k : Z) (draws : list (nat * nat)) (gm : Game.t) :
  Game.init h w k draws = Game.Returned gm →
  Minesweeper.height (Game.grid gm) = h ∧
  Minesweeper.width (Game.grid gm) = w ∧
  (0 ≤ h → 0 ≤ w → Minesweeper.well_formed (Game.grid gm)) ∧
  Z.of_nat (size (Game.mines gm)) = k ∧
  (∀ c, c ∈ Game.mines gm ↔
        (0 ≤ c.1 < h ∧ 0 ≤ c.2 < w) ∧
        Minesweeper.is_mine (Game.grid gm) c = Some true) ∧
  Game.mines_found gm = ∅ ∧
  (Game.won gm = true ↔ k = 0).
Proof.
  unfold Game.init.
  destruct (Game.place h w k draws (Game.empty_board h w) ∅)
    as [[board ms]| |] eqn:E; [|done..].
  intros [= <-]. simpl.
  destruct (place_returned _ _ _ _ _ _ _ _ (board_matches_empty h w) E)
    as ((Hlen & Hrows & Hat & Hin) & Hk).
  split_and!; [done | done | | done | | done |].
  - intros Hh Hw. split; simpl; [lia|].
    eapply Forall_impl; [exact Hrows|]. simpl. intros row Hr. lia.
  - intros [i j]. unfold Minesweeper.is_mine; simpl. split.
    + intros Hc. pose proof (Hin _ Hc) as [Hi Hj]; simpl in *.
      split; [done|]. destruct (Hat i j Hi Hj) as (b & -> & Hiff).
      f_equal. by apply Hiff.
    + intros [[Hi Hj] Hb]. destruct (Hat i j Hi Hj) as (b & Hb' & Hiff).
      apply Hiff. congruence.
  - unfold Game.won; simpl. rewrite bool_decide_eq_true. split.
    + intros <-. by rewrite size_empty in Hk.
    + intros ->. symmetry. apply leibniz_equiv, size_empty_iff. lia.
Qed.

(** A 2x2 board with one mine, built from the draws (1,0). *)
Lemma init_builds_the_board_witness :
  Game.init 2 2 1 [(1%nat, 0%nat)]
    = Game.Returned
        (Game.mk (Minesweeper.mk 2 2 [[false; false]; [true; false]])
                 {[ (1, 0) ]} ∅) ∧
  Minesweeper.well_formed (Minesweeper.mk 2 2 [[false; false]; [true; false]]) ∧
  Game.won (Game.mk (Minesweeper.mk 2 2 [[false; false]; [true; false]])
                    {[ (1, 0) ]} ∅) = false.
Proof.
  assert (Game.init 2 2 1 [(1%nat, 0%nat)]
          = Game.Returned
              (Game.mk (Minesweeper.mk 2 2 [[false; false]; [true; false]])
                       {[ (1, 0) ]} ∅)) as Hinit by (by vm_compute).
  destruct (init_builds_the_board 2 2 1 [(1%nat, 0%nat)] _ Hinit)
    as (_ & _ & Hwf & _ & _ & _ & Hwon).
  split; [exact Hinit|]. split; [apply Hwf; lia|].
  destruct (Game.won _); [|done].
  destruct Hwon as [Hw _]. specialize (Hw eq_refl). lia.
Defined.

(** X18: how [Minesweeper.__init__] ends.  With no mine asked for it
    returns at once, whatever the size, with an empty mine set.  With at
    least one row and one column it never raises: it returns or is still
    drawing.  With no row or no column and a number of mines other than 0,
    its first draw raises.  With a negative number of mines asked for it
    never returns. *)
Theorem init_outcomes (h w k : Z) (draws : list (nat * nat)) :
  (k = 0 → ∃ gm, Game.init h w k draws = Game.Returned gm ∧
                 Game.mines gm = ∅) ∧
  (0 < h → 0 < w → Game.init h w k draws ≠ Game.Raised) ∧
  (h ≤ 0 ∨ w ≤ 0 → k ≠ 0 → draws ≠ [] →
   Game.init h w k draws = Game.Raised) ∧
  (k < 0 → ∀ gm, Game.init h w k draws ≠ Game.Returned gm).
Proof.
  split_and!.
  - intros ->. unfold Game.init.
    assert (Game.place h w 0 draws (Game.empty_board h w) ∅
            = Game.Returned (Game.empty_board h w, ∅)) as ->.
    { assert (Z.of_nat (size (∅ : gset Cell)) = 0) as H0
        by (by rewrite size_empty).
      destruct draws as [|[ri rj] draws]; simpl; by rewrite decide_True. }
    by eexists.
  - intros Hh Hw. unfold Game.init.
    pose proof (place_not_raised h w k draws _ _ Hh Hw
                  (board_matches_empty h w)) as Hn.
    by destruct (Game.place h w k draws (Game.empty_board h w) ∅)
      as [[board ms]| |].
  - intros Hsize Hk Hd. unfold Game.init.
    destruct draws as [|[ri rj] draws]; [done|]. simpl.
    assert (Z.of_nat (size (∅ : gset Cell)) ≠ k) as H0
      by (rewrite size_empty; simpl; lia).
    rewrite decide_False by done.
    unfold Game.randrange. destruct (decide (0 < h)); [|done].
    by rewrite decide_False by lia.
  - intros Hk gm Hinit.
    destruct (init_returns_count h w k draws gm Hinit). lia.
Qed.

(** A board without rows that is asked to hold one mine. *)
Lemma init_outcomes_witness :
  Game.init 0 5 1 [(0%nat, 0%nat)] = Game.Raised ∧
  Game.init 3 3 2 [(0%nat, 0%nat)] ≠ Game.Raised.
Proof.
  destruct (init_outcomes 0 5 1 [(0%nat, 0%nat)]) as (_ & _ & Hraise & _).
  destruct (init_outcomes 3 3 2 [(0%nat, 0%nat)]) as (_ & Hok & _).
  split; [apply Hraise; [lia | lia | done] | apply Hok; lia].
Defined.
